(** * AVFS: path iterator, error tables, umask register, base-path overlay

    A shallow embedding of the parts of the AVFS sources (package [avfs],
    [basepathfs], [dummyidm]) that carry the error/personality table, the
    path iterator, the volume-name scanner, the umask register, the dummy
    identity records and the base-path overlay, together with the
    properties established about them.

    Conventions.
    - A Go [string] is a sequence of bytes: [gostring := list ascii].
    - A Go [int] index is a [Z]; slicing out of range panics in Go and is
      [None] here.
    - A Go [error] interface value is [option goerror]; [None] is [nil].
    - [uint32] values ([LinuxError], [WindowsError], [fs.FileMode]) are [Z]. *)

From Stdlib Require Import ZArith List Bool Ascii String Lia.
Import ListNotations.

Local Open Scope Z_scope.

(* ------------------------------------------------------------------ *)
(** ** Go strings *)

Definition gostring := list ascii.

Definition str (s : string) : gostring := list_ascii_of_string s.

Definition len (s : gostring) : Z := Z.of_nat (List.length s).

(** [a == b] on strings. *)
Fixpoint gostring_eqb (a b : gostring) : bool :=
  match a, b with
  | [], [] => true
  | x :: a', y :: b' => Ascii.eqb x y && gostring_eqb a' b'
  | _, _ => false
  end.

(* ------------------------------------------------------------------ *)
(** ** Errors (package [avfs]) *)

(** The dynamic values an [error] interface holds in these sources:
    [LinuxError] and [WindowsError] are [uint32] newtypes, [*os.PathError]
    and [*os.LinkError] are the two envelopes, [ErrorString] stands for
    [errors.New]. *)
Inductive goerror : Type :=
| LinuxError (n : Z)
| WindowsError (n : Z)
| PathError (Op Path : gostring) (Err : goerror)
| LinkError (Op Old New : gostring) (Err : goerror)
| ErrorString (msg : gostring).

Definition error := option goerror.

Definition errEACCES : Z := 0xd.
Definition errEBADF : Z := 0x9.
Definition errEEXIST : Z := 0x11.
Definition errEINVAL : Z := 0x16.
Definition errEISDIR : Z := 0x15.
Definition errENOENT : Z := 0x2.
Definition errELOOP : Z := 0x28.
Definition errENOTDIR : Z := 0x14.
Definition errENOTEMPTY : Z := 0x27.
Definition errEPERM : Z := 0x1.
Definition errEXDEV : Z := 0x12.

Definition ErrBadFileDesc := LinuxError errEBADF.
Definition ErrCrossDevLink := LinuxError errEXDEV.
Definition ErrDirNotEmpty := LinuxError errENOTEMPTY.
Definition ErrFileExists := LinuxError errEEXIST.
Definition ErrInvalidArgument := LinuxError errEINVAL.
Definition ErrIsADirectory := LinuxError errEISDIR.
Definition ErrNoSuchFileOrDir := LinuxError errENOENT.
Definition ErrNotADirectory := LinuxError errENOTDIR.
Definition ErrOpNotPermitted := LinuxError errEPERM.
Definition ErrPermDenied := LinuxError errEACCES.
Definition ErrTooManySymlinks := LinuxError errELOOP.

(** [const CustomError = 2 << 30] *)
Definition CustomError : Z := Z.shiftl 2 30.

Definition ErrWinAccessDenied := WindowsError 5.
Definition ErrWinAlreadyExists := WindowsError 183.
Definition ErrWinDirNameInvalid := WindowsError 0x10B.
Definition ErrWinDirNotEmpty := WindowsError 145.
Definition ErrWinFileExists := WindowsError 80.
Definition ErrWinFileNotFound := WindowsError 2.
Definition ErrWinIsADirectory := WindowsError 21.
Definition ErrWinNegativeSeek := WindowsError 0x83.
Definition ErrWinNotReparsePoint := WindowsError 4390.
Definition ErrWinInvalidHandle := WindowsError 6.
Definition ErrWinNotSupported := WindowsError 0x20000082.
Definition ErrWinPathNotFound := WindowsError 3.
Definition ErrWinPrivilegeNotHeld := WindowsError 1314.
Definition ErrWinVolumeAlreadyExists := WindowsError (CustomError + 1).
Definition ErrWinVolumeNameInvalid := WindowsError (CustomError + 2).
Definition ErrWinVolumeWindows := WindowsError (CustomError + 3).

(** The operating systems named in the sources ([avfs.OsLinux],
    [avfs.OsWindows], [avfs.OsDarwin]); the [OSType] declaration itself is
    not part of the available files. *)
Inductive OSType : Type := OsLinux | OsWindows | OsDarwin.

Definition OSType_eqb (a b : OSType) : bool :=
  match a, b with
  | OsLinux, OsLinux | OsWindows, OsWindows | OsDarwin, OsDarwin => true
  | _, _ => false
  end.

(** [type Errors struct] : errors regrouped by the OS emulated. *)
Record Errors : Type := mkErrors {
  BadFileDesc : error;
  DirNotEmpty : error;
  FileExists : error;
  InvalidArgument : error;
  IsADirectory : error;
  NoSuchDir : error;
  NoSuchFile : error;
  NotADirectory : error;
  OpNotPermitted : error;
  PermDenied : error;
  TooManySymlinks : error
}.

(** [func (ve *Errors) SetOSType(ost OSType)]: every field is assigned in
    both branches, so the previous contents of [ve] do not survive. *)
Definition SetOSType (ve : Errors) (ost : OSType) : Errors :=
  match ost with
  | OsWindows =>
      {| BadFileDesc := Some ErrWinAccessDenied;
         DirNotEmpty := Some ErrWinDirNotEmpty;
         FileExists := Some ErrWinFileExists;
         InvalidArgument := Some ErrWinNegativeSeek;
         IsADirectory := Some ErrWinIsADirectory;
         NoSuchDir := Some ErrWinPathNotFound;
         NoSuchFile := Some ErrWinFileNotFound;
         NotADirectory := Some ErrWinPathNotFound;
         OpNotPermitted := Some ErrWinNotSupported;
         PermDenied := Some ErrWinAccessDenied;
         TooManySymlinks := Some ErrTooManySymlinks |}
  | _ =>
      {| BadFileDesc := Some ErrBadFileDesc;
         DirNotEmpty := Some ErrDirNotEmpty;
         FileExists := Some ErrFileExists;
         InvalidArgument := Some ErrInvalidArgument;
         IsADirectory := Some ErrIsADirectory;
         NoSuchDir := Some ErrNoSuchFileOrDir;
         NoSuchFile := Some ErrNoSuchFileOrDir;
         NotADirectory := Some ErrNotADirectory;
         OpNotPermitted := Some ErrOpNotPermitted;
         PermDenied := Some ErrPermDenied;
         TooManySymlinks := Some ErrTooManySymlinks |}
  end.

(** The eleven slots of [Errors], as an enumeration, with the accessor that
    reads a slot. *)
Inductive ErrorSlot : Type :=
| SlotBadFileDesc | SlotDirNotEmpty | SlotFileExists | SlotInvalidArgument
| SlotIsADirectory | SlotNoSuchDir | SlotNoSuchFile | SlotNotADirectory
| SlotOpNotPermitted | SlotPermDenied | SlotTooManySymlinks.

Definition slot (k : ErrorSlot) (ve : Errors) : error :=
  match k with
  | SlotBadFileDesc => BadFileDesc ve
  | SlotDirNotEmpty => DirNotEmpty ve
  | SlotFileExists => FileExists ve
  | SlotInvalidArgument => InvalidArgument ve
  | SlotIsADirectory => IsADirectory ve
  | SlotNoSuchDir => NoSuchDir ve
  | SlotNoSuchFile => NoSuchFile ve
  | SlotNotADirectory => NotADirectory ve
  | SlotOpNotPermitted => OpNotPermitted ve
  | SlotPermDenied => PermDenied ve
  | SlotTooManySymlinks => TooManySymlinks ve
  end.

(** Dynamic type tests on an [error] value. *)
Definition isLinuxError (e : error) : bool :=
  match e with Some (LinuxError _) => true | _ => false end.

Definition isWindowsError (e : error) : bool :=
  match e with Some (WindowsError _) => true | _ => false end.

Definition emptyErrors : Errors :=
  mkErrors None None None None None None None None None None None.

(** The Linux errno of every slot, in decimal, as listed in
    [asm-generic/errno-base.h] and [errno.h] (EBADF 9, ENOTEMPTY 39,
    EEXIST 17, EINVAL 22, EISDIR 21, ENOENT 2, ENOTDIR 20, EPERM 1,
    EACCES 13, ELOOP 40). *)
Definition linuxErrno (k : ErrorSlot) : Z :=
  match k with
  | SlotBadFileDesc => 9
  | SlotDirNotEmpty => 39
  | SlotFileExists => 17
  | SlotInvalidArgument => 22
  | SlotIsADirectory => 21
  | SlotNoSuchDir => 2
  | SlotNoSuchFile => 2
  | SlotNotADirectory => 20
  | SlotOpNotPermitted => 1
  | SlotPermDenied => 13
  | SlotTooManySymlinks => 40
  end.

(** The Windows error code of every slot, in decimal; the table of
    [WindowsError] constants has no code for a symbolic-link loop. *)
Definition windowsCode (k : ErrorSlot) : option Z :=
  match k with
  | SlotBadFileDesc => Some 5
  | SlotDirNotEmpty => Some 145
  | SlotFileExists => Some 80
  | SlotInvalidArgument => Some 131
  | SlotIsADirectory => Some 21
  | SlotNoSuchDir => Some 3
  | SlotNoSuchFile => Some 2
  | SlotNotADirectory => Some 3
  | SlotOpNotPermitted => Some 536871042
  | SlotPermDenied => Some 5
  | SlotTooManySymlinks => None
  end.

(* ------------------------------------------------------------------ *)
(** ** Go slices, indexing and [strings.IndexByte] *)

(** Numeric value of a byte. *)
Definition byte (c : ascii) : Z := Z.of_N (N_of_ascii c).

(** [s[i]]: out of range is a run-time panic, [None] here. *)
Definition index (s : gostring) (i : Z) : option ascii :=
  if i <? 0 then None else nth_error s (Z.to_nat i).

(** [s[lo:hi]]: panics unless [0 <= lo <= hi <= len(s)]. *)
Definition slice (s : gostring) (lo hi : Z) : option gostring :=
  if (0 <=? lo) && (lo <=? hi) && (hi <=? len s)
  then Some (firstn (Z.to_nat (hi - lo)) (skipn (Z.to_nat lo) s))
  else None.

(** [s[lo:]] *)
Definition sliceFrom (s : gostring) (lo : Z) : option gostring :=
  slice s lo (len s).

(** [s[:hi]] *)
Definition sliceTo (s : gostring) (hi : Z) : option gostring :=
  slice s 0 hi.

(** [strings.IndexByte(s, c)]: index of the first [c] in [s], or [-1]. *)
Fixpoint IndexByte (s : gostring) (c : ascii) : Z :=
  match s with
  | [] => -1
  | x :: r =>
      if Ascii.eqb x c then 0
      else let p := IndexByte r c in if p =? -1 then -1 else p + 1
  end.

(** Bind of the panic monad. *)
Definition bind {A B : Type} (m : option A) (k : A -> option B) : option B :=
  match m with Some a => k a | None => None end.

Notation "x <- m ;; k" := (bind m (fun x => k))
  (at level 61, m at next level, right associativity).

(* ------------------------------------------------------------------ *)
(** ** Volume names (package [avfs], [BaseFS.volumeNameLen]) *)

Definition isSlash (c : ascii) : bool :=
  Ascii.eqb c "\"%char || Ascii.eqb c "/"%char.

(** ['a' <= c && c <= 'z' || 'A' <= c && c <= 'Z'] *)
Definition isLetter (c : ascii) : bool :=
  ((byte "a" <=? byte c) && (byte c <=? byte "z"))
  || ((byte "A" <=? byte c) && (byte c <=? byte "Z")).

(** The innermost loop [for ; n < l; n++ { if isSlash(path[n]) { break } }]
    followed by [return n].  [k] counts the iterations left, [k = l - n]. *)
Fixpoint scanShare (path : gostring) (n : Z) (k : nat) : option Z :=
  match k with
  | O => Some n
  | S k' =>
      c <- index path n ;;
      if isSlash c then Some n else scanShare path (n + 1) k'
  end.

(** The loop [for n := 3; n < l-1; n++] with its body; falling out of the
    loop, or [break], reaches the final [return 0].  [k] counts the
    iterations left, [k = l - 1 - n]. *)
Fixpoint scanServer (path : gostring) (n : Z) (k : nat) : option Z :=
  match k with
  | O => Some 0
  | S k' =>
      c <- index path n ;;
      if isSlash c then
        let n := n + 1 in
        c' <- index path n ;;
        if negb (isSlash c') then
          if Ascii.eqb c' "."%char then Some 0
          else scanShare path n (Z.to_nat (len path - n))
        else Some 0
      else scanServer path (n + 1) k'
  end.

(** [func (vfs *BaseFS) volumeNameLen(path string) int], with the receiver
    reduced to the [osType] field it reads. *)
Definition volumeNameLen (osType : OSType) (path : gostring) : option Z :=
  if negb (OSType_eqb osType OsWindows) then Some 0
  else if len path <? 2 then Some 0
  else
    c <- index path 0 ;;
    c1 <- index path 1 ;;
    if Ascii.eqb c1 ":"%char && isLetter c then Some 2
    else
      let l := len path in
      if l >=? 5 then
        p0 <- index path 0 ;;
        p1 <- index path 1 ;;
        p2 <- index path 2 ;;
        if isSlash p0 && isSlash p1 && negb (isSlash p2)
           && negb (Ascii.eqb p2 "."%char)
        then scanServer path 3 (Z.to_nat (l - 1 - 3))
        else Some 0
      else Some 0.

(** Shapes of Windows paths.  A drive-letter path begins with an ASCII
    letter followed by [':']. *)
Definition driveForm (path : gostring) : Prop :=
  exists c rest, path = c :: ":"%char :: rest /\ isLetter c = true.

Definition slashFree (s : gostring) : Prop :=
  forall c, In c s -> isSlash c = false.

(** A server or share name in the plain sense: not empty, free of
    slashes. *)
Definition plainName (s : gostring) : Prop :=
  s <> [] /\ slashFree s.

(** A name the scanner accepts: a plain name that does not begin with
    ['.']. *)
Definition uncName (s : gostring) : Prop :=
  plainName s /\ hd_error s <> Some "."%char.

(** What may follow the share name: nothing, or a slash and anything. *)
Definition slashOrEnd (rest : gostring) : Prop :=
  rest = [] \/ exists c r, rest = c :: r /\ isSlash c = true.

(** [path] is two slashes, a server name, a slash and a share name, and
    [n] is the index just past the share name. *)
Definition uncForm (path : gostring) (n : Z) : Prop :=
  exists s0 s1 server s2 share rest,
    path = s0 :: s1 :: server ++ s2 :: share ++ rest /\
    isSlash s0 = true /\ isSlash s1 = true /\ isSlash s2 = true /\
    uncName server /\ uncName share /\ slashOrEnd rest /\
    n = 2 + len server + 1 + len share.

(* ------------------------------------------------------------------ *)
(** ** Path iterator (package [avfs], [PathIterator]) *)

(** [type Utils struct]: the iterator reads the field [pathSeparator] and
    calls the methods [VolumeNameLen], [IsAbs] and [Join]; the bodies of
    these three methods are not part of the available files, so a [Utils]
    value carries them. *)
Record Utils : Type := mkUtils {
  pathSeparator : ascii;
  VolumeNameLen : gostring -> Z;
  IsAbs : gostring -> bool;
  Join : list gostring -> gostring
}.

Record PathIterator : Type := mkPathIterator {
  path : gostring;
  start : Z;
  end_ : Z;
  volumeNameLen_ : Z;
  ut : Utils
}.

Definition set_path (pi : PathIterator) (p : gostring) : PathIterator :=
  mkPathIterator p (start pi) (end_ pi) (volumeNameLen_ pi) (ut pi).

Definition set_start (pi : PathIterator) (s : Z) : PathIterator :=
  mkPathIterator (path pi) s (end_ pi) (volumeNameLen_ pi) (ut pi).

Definition set_end (pi : PathIterator) (e : Z) : PathIterator :=
  mkPathIterator (path pi) (start pi) e (volumeNameLen_ pi) (ut pi).

(** [func (pi *PathIterator) Reset()] *)
Definition Reset (pi : PathIterator) : PathIterator :=
  set_end pi (volumeNameLen_ pi).

(** [func (ut *Utils) NewPathIterator(path string) *PathIterator] *)
Definition NewPathIterator (u : Utils) (p : gostring) : PathIterator :=
  Reset (mkPathIterator p 0 0 (VolumeNameLen u p) u).

(** [func (pi *PathIterator) End() int] *)
Definition End (pi : PathIterator) : Z := end_ pi.

(** [func (pi *PathIterator) Start() int] *)
Definition Start (pi : PathIterator) : Z := start pi.

(** [func (pi *PathIterator) IsLast() bool] *)
Definition IsLast (pi : PathIterator) : bool := end_ pi =? len (path pi).

(** [func (pi *PathIterator) Left() string] *)
Definition Left (pi : PathIterator) : option gostring :=
  sliceTo (path pi) (start pi).

(** [func (pi *PathIterator) Right() string] *)
Definition Right (pi : PathIterator) : option gostring :=
  sliceFrom (path pi) (end_ pi).

(** [func (pi *PathIterator) Part() string] *)
Definition Part (pi : PathIterator) : option gostring :=
  slice (path pi) (start pi) (end_ pi).

(** [func (pi *PathIterator) Next() bool]: the updated iterator and the
    returned flag. *)
Definition Next (pi : PathIterator) : option (PathIterator * bool) :=
  let pi := set_start pi (end_ pi + 1) in
  if start pi >=? len (path pi) then
    Some (set_end pi (start pi), false)
  else
    rest <- sliceFrom (path pi) (start pi) ;;
    let pos := IndexByte rest (pathSeparator (ut pi)) in
    if pos =? -1 then Some (set_end pi (len (path pi)), true)
    else Some (set_end pi (start pi + pos), true).

(** [func (pi *PathIterator) ReplacePart(newPath string) bool].  The
    right operand of [||] is only evaluated when the left one is false. *)
Definition ReplacePart (pi : PathIterator) (newPath : gostring)
  : option (PathIterator * bool) :=
  let u := ut pi in
  let oldPath := path pi in
  newp <-
    (if IsAbs u newPath then
       r <- sliceFrom oldPath (end_ pi) ;;
       Some (Join u [newPath; r])
     else
       l <- sliceTo oldPath (start pi) ;;
       r <- sliceFrom oldPath (end_ pi) ;;
       Some (Join u [l; newPath; r])) ;;
  let pi := set_path pi newp in
  differs <-
    (if start pi >=? len (path pi) then Some true
     else
       a <- sliceTo (path pi) (start pi) ;;
       b <- sliceTo oldPath (start pi) ;;
       Some (negb (gostring_eqb a b))) ;;
  if differs then Some (Reset pi, true)
  else Some (set_end pi (start pi - 1), false).

(** Result of running a loop with a bound on the number of iterations. *)
Inductive outcome (A : Type) : Type :=
| Returned (a : A)
| Panicked
| OutOfFuel.

Arguments Returned {A} a.
Arguments Panicked {A}.
Arguments OutOfFuel {A}.

(** The iteration of the package documentation,
    [for pi.Next() { ... pi.Part() ... }], recording for every part its
    text and the value of [IsLast] while it is current. *)
Fixpoint partsLoop (fuel : nat) (pi : PathIterator)
  : outcome (list (gostring * bool)) :=
  match fuel with
  | O => OutOfFuel
  | S fuel' =>
      match Next pi with
      | None => Panicked
      | Some (pi', false) => Returned []
      | Some (pi', true) =>
          match Part pi' with
          | None => Panicked
          | Some p =>
              match partsLoop fuel' pi' with
              | Returned l => Returned ((p, IsLast pi') :: l)
              | o => o
              end
          end
      end
  end.

Definition iterateParts (u : Utils) (p : gostring)
  : outcome (list (gostring * bool)) :=
  partsLoop (S (List.length p)) (NewPathIterator u p).

(* ------------------------------------------------------------------ *)
(** ** POSIX path helpers *)

(** All the pieces of [s] between occurrences of [sep], empty ones
    included. *)
Fixpoint splitOn (sep : ascii) (s : gostring) : list gostring :=
  match s with
  | [] => [[]]
  | c :: r =>
      if Ascii.eqb c sep then [] :: splitOn sep r
      else match splitOn sep r with
           | h :: t => (c :: h) :: t
           | [] => [[c]]
           end
  end.

(** [strings.Join(elems, sep)] for a one-byte separator. *)
Fixpoint joinWith (sep : ascii) (elems : list gostring) : gostring :=
  match elems with
  | [] => []
  | [e] => e
  | e :: r => e ++ sep :: joinWith sep r
  end.

(** One element of a path meets the elements kept so far (innermost
    first). *)
Definition cleanStep (rooted : bool) (kept : list gostring) (seg : gostring)
  : list gostring :=
  if gostring_eqb seg [] || gostring_eqb seg (str ".") then kept
  else if gostring_eqb seg (str "..") then
    match kept with
    | top :: below =>
        if gostring_eqb top (str "..") then seg :: kept else below
    | [] => if rooted then [] else [seg]
    end
  else seg :: kept.

(** Modelled from the spec: [Clean] of the POSIX personality, whose body is
    missing from the available files.  Section 4.B: "apply the five
    standard lexical rules (collapse repeated separators, remove [.],
    resolve [..] lexically without crossing the root, preserve a trailing
    separator only on bare root)"; the doc comment kept in the overlay adds
    that an empty result becomes ["."]. *)
Definition posixClean (p : gostring) : gostring :=
  let sep := "/"%char in
  let rooted := match p with c :: _ => Ascii.eqb c sep | [] => false end in
  let kept := fold_left (cleanStep rooted) (splitOn sep p) [] in
  let body := joinWith sep (rev kept) in
  if rooted then sep :: body
  else match body with [] => str "." | _ => body end.

(** Modelled from the spec: [Join] of the POSIX personality, whose body is
    missing from the available files.  Section 4.B: "concatenate with a
    single separator and clean"; the doc comment kept in the overlay:
    "The result is Cleaned; in particular, all empty strings are
    ignored." *)
Definition posixJoin (elem : list gostring) : gostring :=
  match filter (fun e => negb (gostring_eqb e [])) elem with
  | [] => []
  | es => posixClean (joinWith "/"%char es)
  end.

(** Modelled from the spec: [IsAbs] of the POSIX personality, whose body is
    missing from the available files.  Section 4.B: "true iff path starts
    with separator (POSIX)". *)
Definition posixIsAbs (p : gostring) : bool :=
  match p with c :: _ => Ascii.eqb c "/"%char | [] => false end.

(** The [Utils] value of the POSIX personality: separator ['/'], no volume
    names. *)
Definition posixUtils : Utils :=
  {| pathSeparator := "/"%char;
     VolumeNameLen := fun p =>
       match volumeNameLen OsLinux p with Some n => n | None => 0 end;
     IsAbs := posixIsAbs;
     Join := posixJoin |}.

(** A clean absolute path after its volume name: the bare root, or every
    segment preceded by one separator. *)
Definition absBody (sep : ascii) (segs : list gostring) : gostring :=
  match segs with
  | [] => [sep]
  | _ => List.concat (map (cons sep) segs)
  end.

(** Every segment paired with the flag "this is the final one". *)
Fixpoint markLast (segs : list gostring) : list (gostring * bool) :=
  match segs with
  | [] => []
  | [s] => [(s, true)]
  | s :: r => (s, false) :: markLast r
  end.

(** A proper segment: not empty, free of separators. *)
Definition segment (sep : ascii) (s : gostring) : Prop :=
  s <> [] /\ ~ In sep s.

(** The bytes of [s] before its first separator. *)
Fixpoint upToSep (sep : ascii) (s : gostring) : gostring :=
  match s with
  | [] => []
  | x :: r => if Ascii.eqb x sep then [] else x :: upToSep sep r
  end.

(** The non-empty segments of [s], in order. *)
Definition nonEmptySegments (sep : ascii) (s : gostring) : list gostring :=
  filter (fun x => negb (gostring_eqb x [])) (splitOn sep s).

(** What lies after the volume name of length [n]. *)
Definition afterVolume (n : Z) (p : gostring) : gostring :=
  skipn (Z.to_nat n) p.

(* ------------------------------------------------------------------ *)
(** ** Umask register (package [avfs], build [!linux && !windows]) *)

(** Conversion to [uint32]. *)
Definition uint32 (x : Z) : Z := x mod 2 ^ 32.

(** [fs.ModePerm = 0o777] *)
Definition ModePerm : Z := 0x1ff.

(** Package-level state: [var umask fs.FileMode = 0o022]. *)
Record Globals : Type := mkGlobals { umask : Z }.

Definition initGlobals : Globals := {| umask := 0x12 |}.

(** [func SetUMask(mask fs.FileMode)] *)
Definition SetUMask (mask : Z) (g : Globals) : Globals :=
  let m := uint32 (Z.land mask ModePerm) in
  {| umask := m |}.

(** [func UMask() fs.FileMode] *)
Definition UMask (g : Globals) : Z :=
  let um := umask g in
  um.

(* ------------------------------------------------------------------ *)
(** ** Dummy identity manager (package [dummyidm]) *)

Module dummyidm.

Record Group : Type := mkGroup { g_name : gostring; g_gid : Z }.

Record User : Type := mkUser { name : gostring; uid : Z; gid : Z }.

(** [func (u *User) Gid() int] *)
Definition Gid (u : User) : Z := gid u.

(** [func (u *User) Uid() int] *)
Definition Uid (u : User) : Z := uid u.

(** [func (u *User) IsRoot() bool] *)
Definition IsRoot (u : User) : bool := (uid u =? 0) || (gid u =? 0).

End dummyidm.

(* ------------------------------------------------------------------ *)
(** ** Base-path overlay (package [basepathfs]) *)

Module basepathfs.

(** [os.O_RDONLY], [os.O_RDWR], [os.O_CREATE], [os.O_TRUNC] with the values
    of the linux port of package [syscall]. *)
Definition O_RDONLY : Z := 0x0.
Definition O_RDWR : Z := 0x2.
Definition O_CREATE : Z := 0x40.
Definition O_TRUNC : Z := 0x200.

(** The methods of the [avfs.VFS] interface that the overlay calls on its
    base file system in the functions below, over a backend state [B] with
    file handles [F].  Every method returns the backend state it leaves. *)
Class VFS (B F : Type) : Type := {
  vfsAbs : B -> gostring -> gostring * error * B;
  vfsChroot : B -> gostring -> error * B;
  vfsOpenFile : B -> gostring -> Z -> Z -> F * error * B
}.

(** [type BasePathFS struct]: the base file system and the stored prefix. *)
Record BasePathFS (B : Type) : Type := mkBasePathFS {
  baseFS : B;
  basePath : gostring
}.

Arguments mkBasePathFS {B} baseFS basePath.
Arguments baseFS {B} b.
Arguments basePath {B} b.

(** The two path translations of the overlay, [pathFsToBpFs] (incoming
    paths) and [pathBpFsToFs] (outgoing paths); their bodies are not part
    of the available files. *)
Class PathMap (B : Type) : Type := {
  pathFsToBpFs : BasePathFS B -> gostring -> gostring;
  pathBpFsToFs : BasePathFS B -> gostring -> gostring
}.

(** What [OpenFile] hands back as an [avfs.File]: the file of the base
    file system as it is, or a [*BasePathFile] wrapping it. *)
Inductive File (F : Type) : Type :=
| BaseFile (f : F)
| BasePathFile (baseFile : F).

Arguments BaseFile {F} f.
Arguments BasePathFile {F} baseFile.

Section Overlay.

Context {B F : Type} `{VFS B F} `{PathMap B}.

Definition set_baseFS (vfs : BasePathFS B) (b : B) : BasePathFS B :=
  mkBasePathFS b (basePath vfs).

(** Modelled from the spec: [restoreError], whose body is missing from the
    available files.  Section 4.I: "every outgoing path (Getwd, Name) has
    the prefix stripped, every returned error's [path] field is similarly
    rewritten"; section 4.A: path errors carry one path, link errors an old
    and a new one. *)
Definition restoreError (vfs : BasePathFS B) (err : error) : error :=
  match err with
  | None => None
  | Some (PathError op p e) => Some (PathError op (pathBpFsToFs vfs p) e)
  | Some (LinkError op o n e) =>
      Some (LinkError op (pathBpFsToFs vfs o) (pathBpFsToFs vfs n) e)
  | Some e => Some e
  end.

(** [func (vfs *BasePathFS) Abs(path string) (string, error)] *)
Definition Abs (vfs : BasePathFS B) (path : gostring)
  : gostring * error * BasePathFS B :=
  let '(absPath, _, b) := vfsAbs (baseFS vfs) path in
  let vfs := set_baseFS vfs b in
  (pathBpFsToFs vfs absPath, None, vfs).

(** [func (vfs *BasePathFS) Chroot(path string) error] *)
Definition Chroot (vfs : BasePathFS B) (path : gostring)
  : error * BasePathFS B :=
  let '(err, b) := vfsChroot (baseFS vfs) (pathFsToBpFs vfs path) in
  let vfs := set_baseFS vfs b in
  match err with
  | Some _ => (restoreError vfs err, vfs)
  | None => (None, mkBasePathFS (baseFS vfs) [])
  end.

(** [func (vfs *BasePathFS) OpenFile(name string, flag int, perm os.FileMode)
    (avfs.File, error)] *)
Definition OpenFile (vfs : BasePathFS B) (name : gostring) (flag perm : Z)
  : File F * error * BasePathFS B :=
  let '(f, err, b) :=
    vfsOpenFile (baseFS vfs) (pathFsToBpFs vfs name) flag perm in
  let vfs := set_baseFS vfs b in
  match err with
  | Some _ => (BaseFile f, restoreError vfs err, vfs)
  | None => (BasePathFile f, None, vfs)
  end.

(** [func (vfs *BasePathFS) Open(path string) (avfs.File, error)] *)
Definition Open (vfs : BasePathFS B) (path : gostring)
  : File F * error * BasePathFS B :=
  OpenFile vfs path O_RDONLY 0.

(** [func (vfs *BasePathFS) Create(name string) (avfs.File, error)] *)
Definition Create (vfs : BasePathFS B) (name : gostring)
  : File F * error * BasePathFS B :=
  OpenFile vfs name (Z.lor (Z.lor O_RDWR O_CREATE) O_TRUNC) 0x1b6.

(** [func (vfs *BasePathFS) EvalSymlinks(path string) (string, error)] *)
Definition EvalSymlinks (vfs : BasePathFS B) (path : gostring)
  : gostring * error * BasePathFS B :=
  let op := str "lstat" in
  ([], Some (PathError op path ErrPermDenied), vfs).

(** [func (vfs *BasePathFS) Readlink(name string) (string, error)] *)
Definition Readlink (vfs : BasePathFS B) (name : gostring)
  : gostring * error * BasePathFS B :=
  let op := str "readlink" in
  ([], Some (PathError op name ErrPermDenied), vfs).

(** [func (vfs *BasePathFS) Symlink(oldname, newname string) error] *)
Definition Symlink (vfs : BasePathFS B) (oldname newname : gostring)
  : error * BasePathFS B :=
  let op := str "symlink" in
  (Some (LinkError op oldname newname ErrPermDenied), vfs).

End Overlay.

End basepathfs.

(* ------------------------------------------------------------------ *)
(** ** A small backend to run the overlay on *)

(** A backend that knows a list of directories and the root it was last
    confined to: [Chroot] and [OpenFile] fail on unknown paths, [Abs] fails
    on the empty path.  It only serves to evaluate the overlay on concrete
    inputs. *)
Record ListFS : Type := mkListFS {
  knownDirs : list gostring;
  rootDir : gostring
}.

Definition knows (b : ListFS) (p : gostring) : bool :=
  existsb (gostring_eqb p) (knownDirs b).

#[export] Instance ListFS_VFS : basepathfs.VFS ListFS (option gostring) := {|
  basepathfs.vfsAbs := fun b p =>
    match p with
    | [] => ([], Some (ErrorString (str "empty path")), b)
    | _ => (p, None, b)
    end;
  basepathfs.vfsChroot := fun b p =>
    if knows b p then (None, mkListFS (knownDirs b) p)
    else (Some (PathError (str "chroot") p ErrNoSuchFileOrDir), b);
  basepathfs.vfsOpenFile := fun b p flag perm =>
    if knows b p then (Some p, None, b)
    else (None, Some (PathError (str "open") p ErrNoSuchFileOrDir), b)
|}.

(** Prefixing and prefix stripping by plain concatenation. *)
#[export] Instance ListFS_PathMap : basepathfs.PathMap ListFS := {|
  basepathfs.pathFsToBpFs := fun vfs p => basepathfs.basePath vfs ++ p;
  basepathfs.pathBpFsToFs := fun vfs p =>
    skipn (List.length (basepathfs.basePath vfs)) p
|}.

Definition sampleFS : basepathfs.BasePathFS ListFS :=
  basepathfs.mkBasePathFS
    (mkListFS [str "/base"; str "/base/tmp"] (str "/"))
    (str "/base").

(* ------------------------------------------------------------------ *)
(** ** Path iterator: the remaining accessors *)

(** [func (pi *PathIterator) LeftPart() string] *)
Definition LeftPart (pi : PathIterator) : option gostring :=
  sliceTo (path pi) (end_ pi).

(** [func (pi *PathIterator) RightPart() string] *)
Definition RightPart (pi : PathIterator) : option gostring :=
  sliceFrom (path pi) (start pi).

(** [func (pi *PathIterator) Path() string] *)
Definition Path (pi : PathIterator) : gostring := path pi.

(** [func (pi *PathIterator) VolumeName() string] *)
Definition VolumeName (pi : PathIterator) : option gostring :=
  sliceTo (path pi) (volumeNameLen_ pi).

(** The pieces of a split, each with the flag "the path ends with this
    piece"; an empty final piece (a path ending with a separator, or an
    empty path) is left out. *)
Fixpoint flagPieces (pieces : list gostring) : list (gostring * bool) :=
  match pieces with
  | [] => []
  | [x] => match x with [] => [] | _ => [(x, true)] end
  | x :: r => (x, false) :: flagPieces r
  end.

(* ------------------------------------------------------------------ *)
(** ** Glob helpers (package [avfs], [BaseFS]) *)

(** The byte of value [z], [0 <= z < 256]. *)
Definition byteOf (z : Z) : ascii := ascii_of_N (Z.to_N z).

(** [string(c)] for a [uint8] [c]: the conversion of an integer to a
    string gives the UTF-8 encoding of the code point of that value, one
    byte below [0x80] and two bytes from [0x80] on. *)
Definition runeString (c : ascii) : gostring :=
  if byte c <? 128 then [c]
  else [byteOf (192 + byte c / 64); byteOf (128 + byte c mod 64)].

(** [func (vfs *BaseFS) cleanGlobPath(path string) string], with the
    receiver reduced to the field [pathSeparator]; the second case of the
    [switch] is [string(vfs.pathSeparator)]. *)
Definition cleanGlobPath (pathSeparator : ascii) (path : gostring)
  : option gostring :=
  if gostring_eqb path [] then Some (str ".")
  else if gostring_eqb path (runeString pathSeparator) then Some path
  else slice path 0 (len path - 1).

(** [func (vfs *BaseFS) cleanGlobPathWindows(path string) (prefixLen int,
    cleaned string)].  The receiver is reduced to its field [osType] and
    to its method [IsPathSeparator], whose body is not part of the
    available files.  The index [path[len(path)-1]] is only evaluated when
    the left operand of [&&] holds. *)
Definition cleanGlobPathWindows (osType : OSType)
  (IsPathSeparator : ascii -> bool) (path : gostring)
  : option (Z * gostring) :=
  vollen <- volumeNameLen osType path ;;
  if gostring_eqb path [] then Some (0, str ".")
  else
    root <-
      (if vollen + 1 =? len path then
         c <- index path (len path - 1) ;; Some (IsPathSeparator c)
       else Some false) ;;
    if root then Some (vollen + 1, path)
    else if (vollen =? len path) && (len path =? 2)
    then Some (vollen, path ++ str ".")
    else
      let vollen := if vollen >=? len path then len path - 1 else vollen in
      cleaned <- slice path 0 (len path - 1) ;;
      Some (vollen, cleaned).

(** [strings.ContainsAny(s, chars)] for a set [chars] of ASCII characters:
    an ASCII byte of a string is always a character of its own, so the
    test is a test on bytes. *)
Definition ContainsAny (s chars : gostring) : bool :=
  existsb (fun c => existsb (Ascii.eqb c) chars) s.

(** [func (vfs *BaseFS) hasMeta(path string) bool] *)
Definition hasMeta (osType : OSType) (path : gostring) : bool :=
  let magicChars :=
    if negb (OSType_eqb osType OsWindows) then str "*?[\" else str "*?[" in
  ContainsAny path magicChars.

(** The first loop of [scanChunk]:
    [for len(pattern) > 0 && pattern[0] == '*' { pattern = pattern[1:];
    star = true }]. *)
Fixpoint stripStars (pattern : gostring) (star : bool) : gostring * bool :=
  match pattern with
  | c :: r => if Ascii.eqb c "*"%char then stripStars r true
              else (pattern, star)
  | [] => (pattern, star)
  end.

(** The loop labelled [Scan] of [scanChunk], from index [i]; the result is
    the value of [i] when the loop is left, by its condition or by
    [break Scan]. *)
Fixpoint scanLoop (osType : OSType) (pattern : gostring) (i : Z)
  (inrange : bool) (fuel : nat) : outcome Z :=
  match fuel with
  | O => OutOfFuel
  | S fuel' =>
      if i <? len pattern then
        match index pattern i with
        | None => Panicked
        | Some c =>
            if Ascii.eqb c "\"%char then
              let i :=
                if negb (OSType_eqb osType OsWindows) then
                  if i + 1 <? len pattern then i + 1 else i
                else i in
              scanLoop osType pattern (i + 1) inrange fuel'
            else if Ascii.eqb c "["%char then
              scanLoop osType pattern (i + 1) true fuel'
            else if Ascii.eqb c "]"%char then
              scanLoop osType pattern (i + 1) false fuel'
            else if Ascii.eqb c "*"%char then
              if negb inrange then Returned i
              else scanLoop osType pattern (i + 1) inrange fuel'
            else scanLoop osType pattern (i + 1) inrange fuel'
        end
      else Returned i
  end.

(** [func (vfs *BaseFS) scanChunk(pattern string) (star bool, chunk, rest
    string)] *)
Definition scanChunk (osType : OSType) (pattern : gostring)
  : outcome (bool * gostring * gostring) :=
  let '(pattern, star) := stripStars pattern false in
  match scanLoop osType pattern 0 false (S (List.length pattern)) with
  | Returned i =>
      match slice pattern 0 i, sliceFrom pattern i with
      | Some chunk, Some rest => Returned (star, chunk, rest)
      | _, _ => Panicked
      end
  | Panicked => Panicked
  | OutOfFuel => OutOfFuel
  end.

(** [strings.LastIndexByte(s, c)]: index of the last [c] in [s], or [-1]. *)
Fixpoint LastIndexByte (s : gostring) (c : ascii) : Z :=
  match s with
  | [] => -1
  | x :: r =>
      let p := LastIndexByte r c in
      if p =? -1 then (if Ascii.eqb x c then 0 else -1) else p + 1
  end.

(** [ErrPatternHasSeparator = errors.New("pattern contains path separator")] *)
Definition ErrPatternHasSeparator : goerror :=
  ErrorString (str "pattern contains path separator").

(** [func (vfs *BaseFS) prefixAndSuffix(pattern string) (prefix, suffix
    string, err error)], with the receiver reduced to its method
    [IsPathSeparator].  The first loop returns at the first separator. *)
Definition prefixAndSuffix (IsPathSeparator : ascii -> bool)
  (pattern : gostring) : option (gostring * gostring * error) :=
  if existsb IsPathSeparator pattern
  then Some ([], [], Some ErrPatternHasSeparator)
  else
    let pos := LastIndexByte pattern "*"%char in
    if negb (pos =? -1) then
      prefix <- sliceTo pattern pos ;;
      suffix <- sliceFrom pattern (pos + 1) ;;
      Some (prefix, suffix, None)
    else Some (pattern, [], None).

(* ------------------------------------------------------------------ *)
(** ** Random names (package [avfs], [BaseFS.nextRandom]) *)

(** The decimal digit [d], [0 <= d <= 9], as a byte. *)
Definition digit (d : Z) : ascii := ascii_of_nat (48 + Z.to_nat d).

Definition isDigit (c : ascii) : bool :=
  (byte "0" <=? byte c) && (byte c <=? byte "9").

(** The decimal digits of [n >= 0], most significant first. *)
Fixpoint digits (fuel : nat) (n : Z) : gostring :=
  match fuel with
  | O => []
  | S fuel' =>
      if n <? 10 then [digit n]
      else digits fuel' (n / 10) ++ [digit (n mod 10)]
  end.

(** [strconv.Itoa(i)]: a number below [2^k] has at most [k] decimal
    digits. *)
Definition Itoa (i : Z) : gostring :=
  if i <? 0 then "-"%char :: digits (S (Z.to_nat (Z.log2 (- i)))) (- i)
  else digits (S (Z.to_nat (Z.log2 i))) i.

(** [func (vfs *BaseFS) reseed() uint32]: [now] is what
    [time.Now().UnixNano()] returns and [pid] what [os.Getpid()] returns. *)
Definition reseed (now pid : Z) : Z := uint32 (now + pid).

(** [func (vfs *BaseFS) nextRandom() string]: the string returned and the
    new value of the package variable [randno]. *)
Definition nextRandom (now pid : Z) (randno : Z) : option (gostring * Z) :=
  let r := randno in
  let r := if r =? 0 then reseed now pid else r in
  let r := uint32 (r * 1664525 + 1013904223) in
  s <- sliceFrom (Itoa (uint32 (1000000000 + r mod 1000000000))) 1 ;;
  Some (s, r).

(** The number a string of decimal digits stands for. *)
Definition digitValue (c : ascii) : Z := byte c - 48.

Definition decimalValue (s : gostring) : Z :=
  fold_left (fun acc c => acc * 10 + digitValue c) s 0.

(* ------------------------------------------------------------------ *)
(** ** Lazy path buffer (package [avfs], [lazybuf]) *)

Module LazyBuf.

(** Reading a byte of a string or of a byte slice. *)
Definition byteAt (s : gostring) (i : Z) : option ascii := index s i.

(** [type lazybuf struct]; a nil [buf] is [None]. *)
Record lazybuf : Type := mkLazybuf {
  path : gostring;
  buf : option (list ascii);
  w : Z;
  volAndPath : gostring;
  volLen : Z
}.

(** [make([]byte, n)] *)
Definition make (n : Z) : list ascii := repeat Ascii.zero (Z.to_nat n).

(** [copy(dst, src)]: the first [min(len(dst), len(src))] bytes of [dst]
    are replaced. *)
Definition copy (dst src : list ascii) : list ascii :=
  let s := firstn (List.length dst) src in
  s ++ skipn (List.length s) dst.

(** [b[i] = c]: out of range is a panic. *)
Definition store (b : list ascii) (i : Z) (c : ascii) : option (list ascii) :=
  if (0 <=? i) && (i <? len b)
  then Some (firstn (Z.to_nat i) b ++ c :: skipn (S (Z.to_nat i)) b)
  else None.

(** [func (b *lazybuf) index(i int) byte] *)
Definition index (b : lazybuf) (i : Z) : option ascii :=
  match buf b with
  | Some bf => byteAt bf i
  | None => byteAt (path b) i
  end.

(** [func (b *lazybuf) append(c byte)] *)
Definition append (b : lazybuf) (c : ascii) : option lazybuf :=
  let finish (bf : list ascii) :=
    bf' <- store bf (w b) c ;;
    Some (mkLazybuf (path b) (Some bf') (w b + 1) (volAndPath b) (volLen b)) in
  match buf b with
  | None =>
      same <-
        (if w b <? len (path b) then
           x <- byteAt (path b) (w b) ;; Some (Ascii.eqb x c)
         else Some false) ;;
      if same then
        Some (mkLazybuf (path b) None (w b + 1) (volAndPath b) (volLen b))
      else
        head <- sliceTo (path b) (w b) ;;
        finish (copy (make (len (path b))) head)
  | Some bf => finish bf
  end.

(** [func (b *lazybuf) string() string] *)
Definition string (b : lazybuf) : option gostring :=
  match buf b with
  | None => sliceTo (volAndPath b) (volLen b + w b)
  | Some bf =>
      vol <- sliceTo (volAndPath b) (volLen b) ;;
      out <- sliceTo bf (w b) ;;
      Some (vol ++ out)
  end.

(** The bytes appended so far. *)
Definition content (b : lazybuf) : gostring :=
  match buf b with
  | None => firstn (Z.to_nat (w b)) (path b)
  | Some bf => firstn (Z.to_nat (w b)) bf
  end.

(** What the code keeps true of a buffer: the write position is inside the
    path, and an allocated buffer is as long as the path. *)
Definition wf (b : lazybuf) : Prop :=
  0 <= w b <= len (path b) /\
  match buf b with
  | Some bf => len bf = len (path b)
  | None => True
  end.

End LazyBuf.

(** A buffer over the path ["/a/b"] behind the volume ["C:"], two bytes
    appended and nothing allocated yet. *)
Definition sampleBuf : LazyBuf.lazybuf :=
  LazyBuf.mkLazybuf (str "/a/b") None 2 (str "C:/a/b") 2.

(* ------------------------------------------------------------------ *)
(** ** Features of the memory file system (package [memfs]) *)

Module memfs.

(** [type memAttrs struct], with the fields the functions below touch;
    [I] is the type of identity managers. *)
Record memAttrs (I : Type) : Type := mkMemAttrs {
  idm : I;
  features : Z;
  name : gostring
}.

Arguments mkMemAttrs {I} idm features name.
Arguments idm {I} m.
Arguments features {I} m.
Arguments name {I} m.

(** [type MemFS struct], with the fields the functions below touch; [U] is
    the type of user records. *)
Record MemFS (I U : Type) : Type := mkMemFS {
  user : U;
  attrs : memAttrs I
}.

Arguments mkMemFS {I U} user attrs.
Arguments user {I U} m.
Arguments attrs {I U} m.

(** The two methods of [avfs.IdentityMgr] that [WithIdm] calls. *)
Class IdentityMgr (I U : Type) : Type := {
  idmFeatures : I -> Z;
  AdminUser : I -> U
}.

Section Options.

Context {I U : Type} `{IdentityMgr I U}.

(** [func (vfs *MemFS) Features() avfs.Features] *)
Definition Features (vfs : MemFS I U) : Z := features (attrs vfs).

(** [func (vfs *MemFS) HasFeature(feature avfs.Features) bool] *)
Definition HasFeature (vfs : MemFS I U) (feature : Z) : bool :=
  Z.land (features (attrs vfs)) feature =? feature.

(** [func (vfs *MemFS) Name() string] *)
Definition Name (vfs : MemFS I U) : gostring := name (attrs vfs).

(** [func WithMainDirs() Option], applied to [vfs]; [FeatMainDirs] is the
    constant [avfs.FeatMainDirs], whose declaration is not part of the
    available files. *)
Definition WithMainDirs (FeatMainDirs : Z) (vfs : MemFS I U) : MemFS I U :=
  mkMemFS (user vfs)
    (mkMemAttrs (idm (attrs vfs))
       (Z.lor (features (attrs vfs)) FeatMainDirs)
       (name (attrs vfs))).

(** [func WithIdm(idm avfs.IdentityMgr) Option], applied to [vfs]. *)
Definition WithIdm (i : I) (vfs : MemFS I U) : MemFS I U :=
  mkMemFS (AdminUser i)
    (mkMemAttrs i
       (Z.lor (features (attrs vfs)) (idmFeatures i))
       (name (attrs vfs))).

(** [func WithName(name string) Option], applied to [vfs]. *)
Definition WithName (n : gostring) (vfs : MemFS I U) : MemFS I U :=
  mkMemFS (user vfs)
    (mkMemAttrs (idm (attrs vfs)) (features (attrs vfs)) n).

End Options.

End memfs.

(* ------------------------------------------------------------------ *)
(** ** Errors of the OS file system (package [osfs]) *)

Module osfs.

(** [func (vfs *OsFS) setErrors()]: the value it stores in
    [vfs.err.PermDenied], the only field it writes; [ost] is what
    [vfs.OSType()] returns. *)
Definition setErrors (ost : OSType) : error :=
  match ost with
  | OsWindows => Some ErrWinAccessDenied
  | _ => Some ErrPermDenied
  end.

End osfs.

(** The feature bits, with the values the generated [String] method of
    [Features] checks them against. *)
Definition FeatChroot : Z := 1.
Definition FeatChownUser : Z := 2.
Definition FeatSystemDirs : Z := 4.
Definition FeatHardlink : Z := 8.
Definition FeatIdentityMgr : Z := 16.
Definition FeatReadOnly : Z := 32.
Definition FeatReadOnlyIdm : Z := 64.
Definition FeatRealFS : Z := 128.
Definition FeatSymlink : Z := 256.

(** An identity manager reduced to what [WithIdm] asks of it: like
    [MemIdm] it announces [FeatIdentityMgr], and its administrator is a
    name.  It only serves to evaluate the options on concrete inputs. *)
Inductive NamedIdm : Type := mkNamedIdm (admin : gostring).

#[export] Instance NamedIdm_IdentityMgr : memfs.IdentityMgr NamedIdm gostring := {|
  memfs.idmFeatures := fun _ => FeatIdentityMgr;
  memfs.AdminUser := fun i => match i with mkNamedIdm a => a end
|}.

(** A memory file system with the features [New] starts from when no
    option is given: [FeatChroot | FeatHardlink | FeatSymlink] (the value
    of [FeatBasicFs] is not part of the available files and is left
    out). *)
Definition sampleMemFS : memfs.MemFS NamedIdm gostring :=
  memfs.mkMemFS (str "Default")
    (memfs.mkMemAttrs (mkNamedIdm (str "none"))
       (Z.lor FeatChroot (Z.lor FeatHardlink FeatSymlink)) []).

(* ------------------------------------------------------------------ *)
(** ** The path translations of the overlay *)

(** Modelled from the spec: the incoming path translation of the overlay,
    [pathFsToBpFs], whose body is missing from the available files.
    Section 4.I: "Every incoming path is lexically joined with the prefix
    (preserving absolute interpretation semantics)"; section 4.B on the
    join: "concatenate with a single separator and clean".  [Join] is the
    join of the personality.  The test of the overlay expects the
    translation of [""] and of ["/"] to be the prefix itself and the one
    of ["/tmp"] to be the prefix followed by ["/tmp"], as a join that
    cleans gives.  The outgoing translation is taken over from [M] as it
    is. *)
Definition joinPathMap {B : Type} (Join : list gostring -> gostring)
    (M : basepathfs.PathMap B) : basepathfs.PathMap B :=
  {| basepathfs.pathFsToBpFs := fun vfs p =>
       Join [basepathfs.basePath vfs; p];
     basepathfs.pathBpFsToFs := @basepathfs.pathBpFsToFs B M |}.

(** The sample backend under the joining translation of the POSIX
    personality. *)
Definition sampleJoinMap : basepathfs.PathMap ListFS :=
  joinPathMap posixJoin ListFS_PathMap.


(* ================================================================== *)
(** * Properties *)

(* ------------------------------------------------------------------ *)
(** ** Basic facts about Go strings and slices *)

Lemma gostring_eqb_eq (a b : gostring) : gostring_eqb a b = true <-> a = b.
Proof.
  revert b. induction a as [|x a IH]; intros [|y b]; simpl;
    try (split; congruence).
  rewrite andb_true_iff, Ascii.eqb_eq, IH. split.
  - intros [-> ->]. reflexivity.
  - intros Heq. inversion Heq. split; reflexivity.
Qed.

Lemma gostring_eqb_refl (a : gostring) : gostring_eqb a a = true.
Proof. now apply gostring_eqb_eq. Qed.

Lemma gostring_eqb_neq (a b : gostring) : gostring_eqb a b = false <-> a <> b.
Proof.
  rewrite <- gostring_eqb_eq. destruct (gostring_eqb a b); split; congruence.
Qed.

Lemma OSType_eqb_eq (a b : OSType) : OSType_eqb a b = true <-> a = b.
Proof. destruct a, b; simpl; split; congruence. Qed.

Lemma len_nonneg (s : gostring) : 0 <= len s.
Proof. unfold len. lia. Qed.

Lemma len_app (a b : gostring) : len (a ++ b) = len a + len b.
Proof. unfold len. rewrite length_app. lia. Qed.

Lemma len_cons (c : ascii) (s : gostring) : len (c :: s) = 1 + len s.
Proof. unfold len. simpl List.length. lia. Qed.

Lemma len_nil : len [] = 0.
Proof. reflexivity. Qed.

(* ------------------------------------------------------------------ *)
(** ** The error table *)

(** C1 (as the code has it).  Whatever [ve] held before, [SetOSType] fills
    every slot from the personality alone.  For every personality other
    than Windows each slot holds the [LinuxError] of its errno.  For the
    Windows personality each slot other than [TooManySymlinks] holds the
    [WindowsError] of its Windows code; the slot [TooManySymlinks] holds
    the Linux value [ErrTooManySymlinks] under every personality. *)
Theorem SetOSType_surface_values (ve : Errors) (ost : OSType) :
  (ost <> OsWindows ->
   forall k, slot k (SetOSType ve ost) = Some (LinuxError (linuxErrno k))
             /\ isLinuxError (slot k (SetOSType ve ost)) = true) /\
  (ost = OsWindows ->
   forall k, k <> SlotTooManySymlinks ->
             option_map WindowsError (windowsCode k)
               = slot k (SetOSType ve ost)
             /\ isWindowsError (slot k (SetOSType ve ost)) = true) /\
  TooManySymlinks (SetOSType ve ost) = Some ErrTooManySymlinks /\
  SetOSType ve ost = SetOSType emptyErrors ost.
Proof.
  split; [|split; [|split]].
  - intros Hne k. destruct ost; try congruence; destruct k; split; reflexivity.
  - intros -> k Hk. destruct k; try (split; reflexivity). congruence.
  - destruct ost; reflexivity.
  - destruct ost; reflexivity.
Qed.

Lemma SetOSType_surface_values_witness :
  isLinuxError (slot SlotPermDenied (SetOSType emptyErrors OsLinux)) = true /\
  isWindowsError (slot SlotPermDenied (SetOSType emptyErrors OsWindows)) = true.
Proof.
  split.
  - apply (proj1 (SetOSType_surface_values emptyErrors OsLinux)).
    discriminate.
  - apply (proj1 (proj2 (SetOSType_surface_values emptyErrors OsWindows))
             eq_refl SlotPermDenied).
    discriminate.
Defined.

(** With the Windows personality the slot [TooManySymlinks] does not hold
    a [WindowsError]: not every slot is a Windows surface value. *)
Lemma SetOSType_windows_not_all_windows :
  ~ (forall k,
        isWindowsError (slot k (SetOSType emptyErrors OsWindows)) = true).
Proof.
  intros Hall. specialize (Hall SlotTooManySymlinks). discriminate Hall.
Qed.

(* ------------------------------------------------------------------ *)
(** ** The umask register *)

Lemma land_ModePerm_range (m : Z) : 0 <= Z.land m ModePerm < 512.
Proof.
  change ModePerm with (Z.ones 9). rewrite Z.land_ones by lia.
  change (2 ^ 9) with 512. apply Z.mod_pos_bound. lia.
Qed.

(** C6.  [SetUMask m] followed by [UMask] returns [m AND 0o777]; the value
    read is a 9-bit value, and a 9-bit mask is read back unchanged. *)
Theorem UMask_SetUMask (g : Globals) (m : Z) :
  UMask (SetUMask m g) = Z.land m 0x1ff /\
  0 <= UMask (SetUMask m g) < 512 /\
  (0 <= m < 512 -> UMask (SetUMask m g) = m).
Proof.
  assert (Hget : UMask (SetUMask m g) = Z.land m 0x1ff).
  { unfold UMask, SetUMask, uint32. simpl umask.
    pose proof (land_ModePerm_range m) as Hr.
    rewrite Z.mod_small; [reflexivity|].
    change (2 ^ 32) with 4294967296. lia. }
  rewrite Hget. split; [reflexivity|]. split.
  - apply (land_ModePerm_range m).
  - intros Hm. change 0x1ff with (Z.ones 9). rewrite Z.land_ones by lia.
    apply Z.mod_small. change (2 ^ 9) with 512. lia.
Qed.

Lemma UMask_SetUMask_witness : UMask (SetUMask 0x12 initGlobals) = 0x12.
Proof.
  apply (proj2 (proj2 (UMask_SetUMask initGlobals 0x12))). lia.
Defined.

(* ------------------------------------------------------------------ *)
(** ** The dummy identity records *)

(** C9.  [IsRoot] holds exactly when the uid is 0 or the gid is 0; in
    particular a user with a non-zero uid and primary group 0 is root. *)
Theorem IsRoot_iff (u : dummyidm.User) :
  (dummyidm.IsRoot u = true <-> dummyidm.uid u = 0 \/ dummyidm.gid u = 0) /\
  (dummyidm.uid u <> 0 -> dummyidm.gid u = 0 -> dummyidm.IsRoot u = true).
Proof.
  unfold dummyidm.IsRoot. split.
  - rewrite orb_true_iff, !Z.eqb_eq. reflexivity.
  - intros _ Hg. rewrite orb_true_iff, !Z.eqb_eq. now right.
Qed.

Lemma IsRoot_iff_witness :
  dummyidm.IsRoot (dummyidm.mkUser (str "staff") 1000 0) = true.
Proof.
  apply (proj2 (IsRoot_iff (dummyidm.mkUser (str "staff") 1000 0))).
  - simpl. lia.
  - reflexivity.
Defined.

(* ------------------------------------------------------------------ *)
(** ** The base-path overlay *)

Section OverlayFacts.

Import basepathfs.

Context {B F : Type} {V : VFS B F} {M : PathMap B}.

(** C2.  [EvalSymlinks] and [Readlink] always return the empty string and
    a [PathError] carrying [ErrPermDenied], [Symlink] always returns a
    [LinkError] carrying [ErrPermDenied]; the overlay and the backend under
    it are left as they were. *)
Theorem symlink_operations_denied
  (vfs : BasePathFS B) (p oldname newname : gostring) :
  EvalSymlinks vfs p
    = ([], Some (PathError (str "lstat") p ErrPermDenied), vfs) /\
  Readlink vfs p
    = ([], Some (PathError (str "readlink") p ErrPermDenied), vfs) /\
  Symlink vfs oldname newname
    = (Some (LinkError (str "symlink") oldname newname ErrPermDenied), vfs).
Proof. split; [|split]; reflexivity. Qed.

(** C3.  [Open(p)] is [OpenFile(p, O_RDONLY, 0)] and [Create(p)] is
    [OpenFile(p, O_RDWR|O_CREATE|O_TRUNC, 0o666)]: same file, same error,
    same state left behind. *)
Theorem Open_Create_as_OpenFile (vfs : BasePathFS B) (p : gostring) :
  Open vfs p = OpenFile vfs p O_RDONLY 0 /\
  Create vfs p
    = OpenFile vfs p (Z.lor O_RDWR (Z.lor O_CREATE O_TRUNC)) 438.
Proof. split; reflexivity. Qed.


(** C10.  [Abs] returns a nil error whatever the base file system
    answered: the string it returns is the translation by [pathBpFsToFs] of
    the string of the base file system, and the backend's error is
    dropped. *)
Theorem Abs_never_fails (vfs : BasePathFS B) (p : gostring) :
  snd (fst (Abs vfs p)) = None /\
  forall absPath err b,
    vfsAbs (baseFS vfs) p = (absPath, err, b) ->
    Abs vfs p
      = (pathBpFsToFs (mkBasePathFS b (basePath vfs)) absPath, None,
         mkBasePathFS b (basePath vfs)).
Proof.
  unfold Abs. destruct (vfsAbs (baseFS vfs) p) as [[a e] b0]. split.
  - reflexivity.
  - intros absPath err b Heq. inversion Heq; subst. reflexivity.
Qed.

End OverlayFacts.

Lemma Abs_never_fails_witness :
  basepathfs.Abs sampleFS []
    = ([], None, sampleFS).
Proof.
  exact (proj2 (Abs_never_fails sampleFS [])
           [] (Some (ErrorString (str "empty path")))
           (basepathfs.baseFS sampleFS) eq_refl).
Defined.

(* ------------------------------------------------------------------ *)
(** ** Slices of concatenations *)

Lemma slice_middle (a b c : gostring) :
  slice (a ++ b ++ c) (len a) (len a + len b) = Some b.
Proof.
  unfold slice.
  pose proof (len_nonneg a). pose proof (len_nonneg b).
  pose proof (len_nonneg c).
  rewrite !len_app.
  replace ((0 <=? len a) && (len a <=? len a + len b)
           && (len a + len b <=? len a + (len b + len c))) with true
    by (symmetry; rewrite !andb_true_iff, !Z.leb_le; lia).
  f_equal.
  replace (Z.to_nat (len a)) with (List.length a) by (unfold len; lia).
  replace (Z.to_nat (len a + len b - len a)) with (List.length b)
    by (unfold len; lia).
  rewrite skipn_app, skipn_all, Nat.sub_diag. simpl.
  rewrite firstn_app, firstn_all, Nat.sub_diag. simpl.
  apply app_nil_r.
Qed.

Lemma sliceFrom_app (a b : gostring) : sliceFrom (a ++ b) (len a) = Some b.
Proof.
  unfold sliceFrom. rewrite len_app.
  rewrite <- (app_nil_r b) at 1. apply slice_middle.
Qed.

Lemma sliceTo_app (a b : gostring) : sliceTo (a ++ b) (len a) = Some a.
Proof.
  unfold sliceTo. change (a ++ b) with ([] ++ a ++ b).
  change 0 with (len []) at 1.
  replace (len a) with (len [] + len a) by (rewrite len_nil; lia).
  apply slice_middle.
Qed.

Lemma slice_in_range (s : gostring) (lo hi : Z) :
  0 <= lo <= hi -> hi <= len s -> exists r, slice s lo hi = Some r.
Proof.
  intros H1 H2. unfold slice.
  replace ((0 <=? lo) && (lo <=? hi) && (hi <=? len s)) with true
    by (symmetry; rewrite !andb_true_iff, !Z.leb_le; lia).
  eexists. reflexivity.
Qed.

Lemma sliceTo_firstn (s : gostring) (hi : Z) :
  0 <= hi <= len s -> sliceTo s hi = Some (firstn (Z.to_nat hi) s).
Proof.
  intros Hr. unfold sliceTo, slice.
  replace ((0 <=? 0) && (0 <=? hi) && (hi <=? len s)) with true
    by (symmetry; rewrite !andb_true_iff, !Z.leb_le; lia).
  rewrite Z.sub_0_r. reflexivity.
Qed.

Lemma sliceFrom_skipn (s : gostring) (lo : Z) :
  0 <= lo <= len s -> sliceFrom s lo = Some (skipn (Z.to_nat lo) s).
Proof.
  intros Hr. unfold sliceFrom, slice.
  replace ((0 <=? lo) && (lo <=? len s) && (len s <=? len s)) with true
    by (symmetry; rewrite !andb_true_iff, !Z.leb_le; lia).
  f_equal. apply firstn_all2. rewrite length_skipn. unfold len. lia.
Qed.

(* ------------------------------------------------------------------ *)
(** ** [IndexByte] *)

Lemma IndexByte_absent (s : gostring) (c : ascii) :
  ~ In c s -> IndexByte s c = -1.
Proof.
  induction s as [|x s IH]; simpl; intros Hn; [reflexivity|].
  destruct (Ascii.eqb x c) eqn:E.
  - apply Ascii.eqb_eq in E. tauto.
  - rewrite IH by tauto. reflexivity.
Qed.

Lemma IndexByte_first (s r : gostring) (c : ascii) :
  ~ In c s -> IndexByte (s ++ c :: r) c = len s.
Proof.
  induction s as [|x s IH]; simpl; intros Hn.
  - rewrite Ascii.eqb_refl. reflexivity.
  - destruct (Ascii.eqb x c) eqn:E.
    + apply Ascii.eqb_eq in E. tauto.
    + rewrite IH by tauto. pose proof (len_nonneg s) as Hs.
      destruct (len s =? -1) eqn:E1; [apply Z.eqb_eq in E1; lia|].
      rewrite len_cons. lia.
Qed.

(* ------------------------------------------------------------------ *)
(** ** Splitting a clean path *)

Lemma splitOn_no_sep (sep : ascii) (s : gostring) :
  ~ In sep s -> splitOn sep s = [s].
Proof.
  induction s as [|x s IH]; simpl; intros Hn; [reflexivity|].
  destruct (Ascii.eqb x sep) eqn:E.
  - apply Ascii.eqb_eq in E. subst. tauto.
  - rewrite IH by tauto. reflexivity.
Qed.

Lemma splitOn_at_sep (sep : ascii) (s r : gostring) :
  ~ In sep s -> splitOn sep (s ++ sep :: r) = s :: splitOn sep r.
Proof.
  induction s as [|x s IH]; simpl; intros Hn.
  - rewrite Ascii.eqb_refl. reflexivity.
  - destruct (Ascii.eqb x sep) eqn:E.
    + apply Ascii.eqb_eq in E. subst. tauto.
    + rewrite IH by tauto. reflexivity.
Qed.

Lemma splitOn_segments (sep : ascii) (segs : list gostring) :
  Forall (segment sep) segs ->
  forall s0, ~ In sep s0 ->
  splitOn sep (s0 ++ List.concat (map (cons sep) segs)) = s0 :: segs.
Proof.
  induction 1 as [|s rest [Hne Hs] Hrest IH]; intros s0 H0; simpl.
  - rewrite app_nil_r. now apply splitOn_no_sep.
  - rewrite splitOn_at_sep by assumption. f_equal. now apply IH.
Qed.

Lemma filter_nonEmpty_segments (sep : ascii) (segs : list gostring) :
  Forall (segment sep) segs ->
  filter (fun x => negb (gostring_eqb x [])) segs = segs.
Proof.
  induction 1 as [|s rest [Hne Hs] Hrest IH]; simpl; [reflexivity|].
  destruct s; [congruence|]. simpl. now rewrite IH.
Qed.

Lemma nonEmptySegments_absBody (sep : ascii) (segs : list gostring) :
  Forall (segment sep) segs ->
  nonEmptySegments sep (absBody sep segs) = segs.
Proof.
  intros Hs. unfold nonEmptySegments, absBody. destruct segs as [|s rest].
  - simpl. rewrite Ascii.eqb_refl. reflexivity.
  - change (List.concat (map (cons sep) (s :: rest)))
      with ([] ++ List.concat (map (cons sep) (s :: rest))).
    rewrite splitOn_segments by (auto; intros []).
    exact (filter_nonEmpty_segments sep (s :: rest) Hs).
Qed.

(* ------------------------------------------------------------------ *)
(** ** Iterating over a clean absolute path *)

(** The three ways out of [Next]. *)
Lemma Next_done (p : gostring) (st e vnl : Z) (u : Utils) :
  len p <= e + 1 ->
  Next (mkPathIterator p st e vnl u)
    = Some (mkPathIterator p (e + 1) (e + 1) vnl u, false).
Proof.
  intros Hge. unfold Next, set_start, set_end. cbn [path start end_ ut volumeNameLen_].
  replace (e + 1 >=? len p) with true by (symmetry; apply Z.geb_le; lia).
  reflexivity.
Qed.

Lemma Next_final (p rest : gostring) (st e vnl : Z) (u : Utils) :
  e + 1 < len p ->
  sliceFrom p (e + 1) = Some rest ->
  IndexByte rest (pathSeparator u) = -1 ->
  Next (mkPathIterator p st e vnl u)
    = Some (mkPathIterator p (e + 1) (len p) vnl u, true).
Proof.
  intros Hlt Hrest Hpos. unfold Next, set_start, set_end.
  cbn [path start end_ ut volumeNameLen_].
  replace (e + 1 >=? len p) with false
    by (symmetry; rewrite Z.geb_leb; apply Z.leb_gt; lia).
  rewrite Hrest. cbn [bind]. rewrite Hpos. reflexivity.
Qed.

Lemma Next_inner (p rest : gostring) (st e vnl pos : Z) (u : Utils) :
  e + 1 < len p ->
  sliceFrom p (e + 1) = Some rest ->
  IndexByte rest (pathSeparator u) = pos ->
  pos <> -1 ->
  Next (mkPathIterator p st e vnl u)
    = Some (mkPathIterator p (e + 1) (e + 1 + pos) vnl u, true).
Proof.
  intros Hlt Hrest Hpos Hne. unfold Next, set_start, set_end.
  cbn [path start end_ ut volumeNameLen_].
  replace (e + 1 >=? len p) with false
    by (symmetry; rewrite Z.geb_leb; apply Z.leb_gt; lia).
  rewrite Hrest. cbn [bind]. rewrite Hpos.
  replace (pos =? -1) with false by (symmetry; apply Z.eqb_neq; lia).
  reflexivity.
Qed.

(** The loop invariant: the cursor stands at the end of [pre], and what
    follows is a run of proper segments, each behind one separator. *)
Lemma partsLoop_segments (u : Utils) (segs : list gostring) :
  Forall (segment (pathSeparator u)) segs ->
  forall (fuel : nat) (p pre : gostring) (st vnl : Z),
    (List.length segs < fuel)%nat ->
    p = pre ++ List.concat (map (cons (pathSeparator u)) segs) ->
    partsLoop fuel (mkPathIterator p st (len pre) vnl u)
      = Returned (markLast segs).
Proof.
  induction 1 as [|s rest [Hne Hs] Hrest IH]; intros fuel p pre st vnl Hf Hp.
  - destruct fuel as [|fuel]; [simpl in Hf; lia|].
    simpl in Hp. rewrite app_nil_r in Hp. subst p.
    cbn [partsLoop]. rewrite Next_done by lia. reflexivity.
  - destruct fuel as [|fuel]; [simpl in Hf; lia|].
    simpl in Hf.
    set (sep := pathSeparator u) in *.
    set (tail := List.concat (map (cons sep) rest)) in *.
    assert (Hp' : p = (pre ++ [sep]) ++ s ++ tail).
    { subst p. simpl. rewrite <- app_assoc. reflexivity. }
    assert (Hlen : len p = len pre + 1 + len s + len tail).
    { rewrite Hp', !len_app, len_cons, len_nil. lia. }
    assert (Hs1 : 1 <= len s).
    { destruct s; [congruence|]. rewrite len_cons.
      pose proof (len_nonneg s). lia. }
    pose proof (len_nonneg tail) as Ht.
    pose proof (len_nonneg pre) as Hpre.
    assert (Hpre1 : len (pre ++ [sep]) = len pre + 1).
    { rewrite len_app, len_cons, len_nil. lia. }
    assert (Hrest' : sliceFrom p (len pre + 1) = Some (s ++ tail)).
    { rewrite Hp', <- Hpre1. apply sliceFrom_app. }
    assert (Hpart : forall e, e = len pre + 1 + len s ->
              slice p (len pre + 1) e = Some s).
    { intros e ->. rewrite Hp', <- Hpre1. apply slice_middle. }
    assert (Hnext : p = (pre ++ sep :: s) ++ tail).
    { subst p. simpl. rewrite <- app_assoc. reflexivity. }
    assert (Hpre2 : len (pre ++ sep :: s) = len pre + 1 + len s).
    { rewrite len_app, len_cons. lia. }
    cbn [partsLoop].
    destruct rest as [|s2 rest2].
    + (* [s] is the final segment *)
      assert (Htl : tail = []) by reflexivity.
      rewrite (Next_final p (s ++ tail)); try assumption; try lia.
      2:{ rewrite Htl, app_nil_r. now apply IndexByte_absent. }
      unfold Part. cbn [start end_ path].
      assert (Hend : len p = len (pre ++ sep :: s))
        by (rewrite Hlen, Hpre2, Htl, len_nil; lia).
      rewrite (Hpart (len p)) by (rewrite Hlen, Htl, len_nil; lia).
      unfold IsLast. cbn [end_ path]. rewrite Z.eqb_refl, Hend.
      rewrite (IH fuel p (pre ++ sep :: s)) by (simpl; (lia || assumption)).
      reflexivity.
    + (* another segment follows *)
      assert (Htl : tail = sep :: s2 ++ List.concat (map (cons sep) rest2))
        by reflexivity.
      assert (Ht1 : 1 <= len tail).
      { rewrite Htl, len_cons.
        pose proof (len_nonneg (s2 ++ List.concat (map (cons sep) rest2))).
        lia. }
      rewrite (Next_inner p (s ++ tail) st (len pre) vnl (len s));
        try assumption; try lia.
      2:{ rewrite Htl. now apply IndexByte_first. }
      unfold Part. cbn [start end_ path].
      rewrite (Hpart (len pre + 1 + len s)) by reflexivity.
      rewrite <- Hpre2.
      rewrite (IH fuel p (pre ++ sep :: s)) by (simpl in *; (lia || assumption)).
      unfold IsLast. cbn [end_ path].
      replace (len (pre ++ sep :: s) =? len p) with false
        by (symmetry; apply Z.eqb_neq; lia).
      reflexivity.
Qed.

Lemma segments_length (sep : ascii) (segs : list gostring) :
  (List.length segs
   <= List.length (List.concat (map (cons sep) segs)))%nat.
Proof.
  induction segs as [|s rest IH]; simpl; [lia|].
  rewrite length_app. lia.
Qed.

Lemma partsLoop_absBody (u : Utils) (vol : gostring) (segs : list gostring) :
  Forall (segment (pathSeparator u)) segs ->
  forall (fuel : nat) (st vnl : Z),
    (List.length segs < fuel)%nat ->
    partsLoop fuel
      (mkPathIterator (vol ++ absBody (pathSeparator u) segs)
         st (len vol) vnl u)
      = Returned (markLast segs).
Proof.
  intros Hs fuel st vnl Hf. destruct segs as [|s rest].
  - destruct fuel as [|fuel]; [simpl in Hf; lia|].
    cbn [partsLoop absBody]. rewrite Next_done; [reflexivity|].
    rewrite len_app, len_cons, len_nil. lia.
  - apply partsLoop_segments; auto.
Qed.

(** C5 (as the code has it).  For a clean absolute path, that is a volume
    name followed either by the bare root or by proper segments each
    preceded by one separator, the iteration [for pi.Next() { pi.Part() }]
    terminates without panic and yields exactly the non-empty segments
    found after the volume name, in order; [IsLast] is true on the final
    segment and false on every other one. *)
Theorem iterate_clean_absolute_path
  (u : Utils) (vol : gostring) (segs : list gostring) :
  let sep := pathSeparator u in
  let p := vol ++ absBody sep segs in
  VolumeNameLen u p = len vol ->
  Forall (segment sep) segs ->
  iterateParts u p
    = Returned
        (markLast (nonEmptySegments sep (afterVolume (VolumeNameLen u p) p)))
  /\ nonEmptySegments sep (afterVolume (VolumeNameLen u p) p) = segs
  /\ forall fuel, (List.length segs < fuel)%nat ->
       partsLoop fuel (NewPathIterator u p) = Returned (markLast segs).
Proof.
  intros sep p Hvol Hsegs.
  assert (Hafter : nonEmptySegments sep (afterVolume (VolumeNameLen u p) p)
                   = segs).
  { rewrite Hvol. unfold afterVolume, p.
    replace (Z.to_nat (len vol)) with (List.length vol)
      by (unfold len; lia).
    rewrite skipn_app, skipn_all, Nat.sub_diag. simpl.
    now apply nonEmptySegments_absBody. }
  assert (Hloop : forall fuel, (List.length segs < fuel)%nat ->
            partsLoop fuel (NewPathIterator u p) = Returned (markLast segs)).
  { intros fuel Hf. unfold NewPathIterator, Reset, set_end.
    cbn [path start end_ volumeNameLen_ ut]. rewrite Hvol.
    now apply partsLoop_absBody. }
  split; [|split; assumption].
  rewrite Hafter. unfold iterateParts. apply Hloop.
  unfold p. rewrite length_app. unfold absBody. destruct segs as [|s rest].
  - simpl. lia.
  - pose proof (segments_length sep (s :: rest)). unfold sep in *. lia.
Qed.

Lemma iterate_clean_absolute_path_witness :
  iterateParts posixUtils (str "/abc/de/f")
    = Returned [(str "abc", false); (str "de", false); (str "f", true)].
Proof.
  assert (Hsegs : Forall (segment "/"%char) [str "abc"; str "de"; str "f"]).
  { repeat constructor; try discriminate; simpl; intuition discriminate. }
  exact (proj1 (iterate_clean_absolute_path posixUtils []
                  [str "abc"; str "de"; str "f"] eq_refl Hsegs)).
Defined.

(** On ["/a//b"] the iteration yields an empty part between ["a"] and
    ["b"]: the parts are not the non-empty segments of the path. *)
Lemma iterate_repeated_separator :
  iterateParts posixUtils (str "/a//b")
    = Returned [(str "a", false); ([], false); (str "b", true)]
  /\ iterateParts posixUtils (str "/a//b")
     <> Returned
          (markLast
             (nonEmptySegments "/"%char
                (afterVolume (VolumeNameLen posixUtils (str "/a//b"))
                   (str "/a//b")))).
Proof.
  split.
  - reflexivity.
  - vm_compute. discriminate.
Qed.

(** With a trailing separator [IsLast] is false on the final segment. *)
Lemma iterate_trailing_separator :
  iterateParts posixUtils (str "/a/b/")
    = Returned [(str "a", false); (str "b", false)].
Proof. reflexivity. Qed.

(* ------------------------------------------------------------------ *)
(** ** One step of the iterator, in general *)

Lemma upToSep_no_sep (sep : ascii) (s : gostring) :
  ~ In sep s -> upToSep sep s = s.
Proof.
  induction s as [|x s IH]; simpl; intros Hn; [reflexivity|].
  destruct (Ascii.eqb x sep) eqn:E.
  - apply Ascii.eqb_eq in E. subst. tauto.
  - rewrite IH by tauto. reflexivity.
Qed.

Lemma upToSep_at_sep (sep : ascii) (a b : gostring) :
  ~ In sep a -> upToSep sep (a ++ sep :: b) = a.
Proof.
  induction a as [|x a IH]; simpl; intros Hn.
  - now rewrite Ascii.eqb_refl.
  - destruct (Ascii.eqb x sep) eqn:E.
    + apply Ascii.eqb_eq in E. subst. tauto.
    + rewrite IH by tauto. reflexivity.
Qed.

Lemma first_sep_split (sep : ascii) (s : gostring) :
  ~ In sep s \/ exists a b, s = a ++ sep :: b /\ ~ In sep a.
Proof.
  induction s as [|x s IH].
  - left. intros [].
  - destruct (Ascii.eqb x sep) eqn:E.
    + apply Ascii.eqb_eq in E. subst. right. exists [], s. split; auto.
    + apply Ascii.eqb_neq in E. destruct IH as [Hn | (a & b & -> & Ha)].
      * left. simpl. intros [Hx | Hin]; auto.
      * right. exists (x :: a), b. split; [reflexivity|].
        simpl. intros [Hx | Hin]; auto.
Qed.

(** When something is left after the cursor, [Next] returns true and the
    part it moves to is what lies between the position after the cursor and
    the following separator. *)
Lemma Next_part (p : gostring) (st e vnl : Z) (u : Utils) :
  0 <= e + 1 < len p ->
  let part := upToSep (pathSeparator u) (skipn (Z.to_nat (e + 1)) p) in
  let pi' := mkPathIterator p (e + 1) (e + 1 + len part) vnl u in
  Next (mkPathIterator p st e vnl u) = Some (pi', true)
  /\ Part pi' = Some part
  /\ e + 1 + len part <= len p.
Proof.
  intros Hr part pi'.
  set (sep := pathSeparator u) in *.
  set (pre := firstn (Z.to_nat (e + 1)) p).
  set (rest := skipn (Z.to_nat (e + 1)) p) in *.
  assert (Hp : p = pre ++ rest) by (symmetry; apply firstn_skipn).
  assert (Hpre : len pre = e + 1).
  { unfold pre, len. rewrite length_firstn. unfold len in Hr. lia. }
  assert (Hfrom : sliceFrom p (e + 1) = Some rest).
  { rewrite Hp at 1. rewrite <- Hpre. apply sliceFrom_app. }
  assert (Hlen : len p = e + 1 + len rest).
  { rewrite Hp, len_app. lia. }
  pose proof (len_nonneg rest) as Hrest0.
  destruct (first_sep_split sep rest) as [Hn | (a & b & Hab & Ha)].
  - assert (Hpart : part = rest) by (apply upToSep_no_sep; exact Hn).
    rewrite (Next_final p rest); try assumption; try lia.
    2:{ now apply IndexByte_absent. }
    unfold pi'. rewrite Hpart, <- Hlen. repeat split; try lia.
    unfold Part. cbn [path start end_]. exact Hfrom.
  - assert (Hpart : part = a).
    { unfold part. rewrite Hab. now apply upToSep_at_sep. }
    pose proof (len_nonneg a) as Ha0.
    rewrite (Next_inner p rest st e vnl (len a)); try assumption; try lia.
    2:{ rewrite Hab. now apply IndexByte_first. }
    unfold pi'. rewrite Hpart. repeat split.
    + unfold Part. cbn [path start end_].
      rewrite Hp, Hab, <- Hpre. apply slice_middle.
    + rewrite Hlen, Hab, len_app, len_cons. pose proof (len_nonneg b). lia.
Qed.

(** When [Next] returns true from a cursor at or after [-1], the iterator
    is positioned on a part: [0 <= start <= end <= len(path)]. *)
Lemma Next_positioned (pi pi' : PathIterator) :
  -1 <= end_ pi ->
  Next pi = Some (pi', true) ->
  0 <= start pi' <= end_ pi' /\ end_ pi' <= len (path pi').
Proof.
  destruct pi as [p st e vnl u]. cbn [end_]. intros He Hnext.
  destruct (Z_lt_le_dec (e + 1) (len p)) as [Hlt | Hge].
  - destruct (Next_part p st e vnl u) as (Hn & _ & Hle); [lia|].
    rewrite Hn in Hnext. inversion Hnext; subst pi'. cbn [start end_ path].
    pose proof (len_nonneg
                  (upToSep (pathSeparator u) (skipn (Z.to_nat (e + 1)) p))).
    lia.
  - rewrite Next_done in Hnext by lia. discriminate.
Qed.

(* ------------------------------------------------------------------ *)
(** ** Replacing the current part *)

(** C4 (as the code has it).  On an iterator positioned on a part
    ([0 <= start <= end <= len(path)]) [ReplacePart(newPath)] does not
    panic and rewrites the path to [Join(newPath, right)] when [newPath] is
    absolute and to [Join(left, newPath, right)] when it is relative.  If
    the new path is not longer than [start], or does not begin with the
    old [left], the cursor is reset to the volume-name length and true is
    returned.  Otherwise, for an absolute as for a relative [newPath], the
    cursor is put at [start - 1] and false is returned; the following
    [Next] then returns true and moves to the part of the new path that
    begins at [start], where the replaced part began.  So true is returned
    exactly when the iterator was reset. *)
Theorem ReplacePart_positioned (pi : PathIterator) (newPath : gostring) :
  0 <= start pi <= end_ pi ->
  end_ pi <= len (path pi) ->
  let u := ut pi in
  let vnl := volumeNameLen_ pi in
  let left := firstn (Z.to_nat (start pi)) (path pi) in
  let right := skipn (Z.to_nat (end_ pi)) (path pi) in
  let newp :=
    if IsAbs u newPath then Join u [newPath; right]
    else Join u [left; newPath; right] in
  let reset :=
    (len newp <=? start pi)
    || negb (gostring_eqb (firstn (Z.to_nat (start pi)) newp) left) in
  Left pi = Some left /\
  Right pi = Some right /\
  ReplacePart pi newPath
    = Some (mkPathIterator newp (start pi)
              (if reset then vnl else start pi - 1) vnl u,
            reset) /\
  (reset = true ->
   ReplacePart pi newPath
     = Some (Reset (mkPathIterator newp (start pi) (end_ pi) vnl u), true)) /\
  (reset = false ->
   let part := upToSep (pathSeparator u) (skipn (Z.to_nat (start pi)) newp) in
   let pi' := mkPathIterator newp (start pi) (start pi + len part) vnl u in
   firstn (Z.to_nat (start pi)) newp = left /\
   Next (mkPathIterator newp (start pi) (start pi - 1) vnl u)
     = Some (pi', true) /\
   Part pi' = Some part).
Proof.
  destruct pi as [p st e v u0].
  lazy beta iota delta [path start end_ ut volumeNameLen_].
  intros Hse Hel u vnl left right newp reset.
  assert (Hleft : sliceTo p st = Some left)
    by (apply sliceTo_firstn; lia).
  assert (Hright : sliceFrom p e = Some right)
    by (apply sliceFrom_skipn; lia).
  assert (Hnewp :
    (if IsAbs u0 newPath
     then r <- sliceFrom p e ;; Some (Join u0 [newPath; r])
     else l <- sliceTo p st ;; r <- sliceFrom p e ;;
          Some (Join u0 [l; newPath; r])) = Some newp).
  { unfold newp, u. rewrite Hleft, Hright.
    destruct (IsAbs u0 newPath); reflexivity. }
  assert (Hdiff :
    (if st >=? len newp then Some true
     else a <- sliceTo newp st ;; b <- sliceTo p st ;;
          Some (negb (gostring_eqb a b))) = Some reset).
  { unfold reset. rewrite Z.geb_leb.
    destruct (len newp <=? st) eqn:E; [reflexivity|].
    apply Z.leb_gt in E.
    rewrite sliceTo_firstn by lia. rewrite Hleft. reflexivity. }
  assert (Hres : ReplacePart (mkPathIterator p st e v u0) newPath
                 = Some (mkPathIterator newp st
                           (if reset then vnl else st - 1) vnl u, reset)).
  { unfold ReplacePart, set_path, set_end, Reset.
    cbn [path start end_ ut volumeNameLen_].
    rewrite Hnewp. cbn [bind]. cbn [path start end_ ut volumeNameLen_].
    rewrite Hdiff. cbn [bind]. destruct reset; reflexivity. }
  split; [exact Hleft|]. split; [exact Hright|]. split; [exact Hres|]. split.
  - intros Hreset. rewrite Hres, Hreset. reflexivity.
  - intros Hreset part pi'. unfold reset in Hreset.
    apply orb_false_iff in Hreset. destruct Hreset as [Hlen Heq].
    apply Z.leb_gt in Hlen. apply negb_false_iff, gostring_eqb_eq in Heq.
    split; [exact Heq|].
    destruct (Next_part newp st (st - 1) vnl u) as (Hn & Hp & _); [lia|].
    replace (st - 1 + 1) with st in * by lia.
    split; assumption.
Qed.

(* ------------------------------------------------------------------ *)
(** ** Volume names *)

Lemma index_app_at (pre tl : gostring) (c : ascii) :
  index (pre ++ c :: tl) (len pre) = Some c.
Proof.
  unfold index. pose proof (len_nonneg pre) as Hp.
  replace (len pre <? 0) with false by (symmetry; apply Z.ltb_ge; lia).
  replace (Z.to_nat (len pre)) with (List.length pre) by (unfold len; lia).
  rewrite nth_error_app2 by lia. rewrite Nat.sub_diag. reflexivity.
Qed.

Lemma index_0 (a : ascii) (l : gostring) : index (a :: l) 0 = Some a.
Proof. reflexivity. Qed.

Lemma index_1 (a b : ascii) (l : gostring) : index (a :: b :: l) 1 = Some b.
Proof. reflexivity. Qed.

Lemma index_2 (a b c : ascii) (l : gostring) :
  index (a :: b :: c :: l) 2 = Some c.
Proof. reflexivity. Qed.

Lemma len_snoc (pre : gostring) (c : ascii) : len (pre ++ [c]) = len pre + 1.
Proof. rewrite len_app, len_cons, len_nil. lia. Qed.

Lemma isSlash_not_letter (c : ascii) : isSlash c = true -> isLetter c = false.
Proof.
  unfold isSlash. rewrite orb_true_iff, !Ascii.eqb_eq.
  intros [-> | ->]; reflexivity.
Qed.

Lemma isSlash_not_dot (c : ascii) :
  isSlash c = true -> Ascii.eqb c "."%char = false.
Proof.
  unfold isSlash. rewrite orb_true_iff, !Ascii.eqb_eq.
  intros [-> | ->]; reflexivity.
Qed.

(** The share scan stops at the first slash or at the end of the path. *)
Lemma scanShare_run (a : gostring) :
  slashFree a ->
  forall pre b,
    slashOrEnd b ->
    scanShare (pre ++ a ++ b) (len pre) (List.length (a ++ b))
      = Some (len pre + len a).
Proof.
  induction a as [|x a IH]; intros Ha pre b Hb.
  - rewrite len_nil, Z.add_0_r. cbn [app].
    destruct Hb as [-> | (c & r & -> & Hc)].
    + reflexivity.
    + cbn [List.length scanShare]. rewrite index_app_at. cbn [bind].
      rewrite Hc. reflexivity.
  - cbn [app List.length scanShare]. rewrite index_app_at. cbn [bind].
    rewrite (Ha x) by (left; reflexivity).
    replace (pre ++ x :: a ++ b) with ((pre ++ [x]) ++ a ++ b)
      by (rewrite <- app_assoc; reflexivity).
    rewrite <- (len_snoc pre x). rewrite IH.
    + f_equal. rewrite len_snoc, len_cons. lia.
    + intros c Hc. apply Ha. now right.
    + exact Hb.
Qed.

(** The server scan on a well-formed remainder. *)
Lemma scanServer_run (srv : gostring) :
  slashFree srv ->
  forall pre s2 share rest,
    isSlash s2 = true ->
    uncName share ->
    slashOrEnd rest ->
    scanServer (pre ++ srv ++ s2 :: share ++ rest) (len pre)
      (List.length srv + List.length (share ++ rest))
      = Some (len pre + len srv + 1 + len share).
Proof.
  induction srv as [|x srv IH]; intros Hsrv pre s2 share rest H2 Hsh Hrest.
  - destruct Hsh as [[Hne Hfree] Hdot].
    destruct share as [|h sh]; [congruence|].
    cbn [app List.length Nat.add scanServer].
    rewrite index_app_at. cbn [bind]. rewrite H2.
    replace (pre ++ s2 :: h :: sh ++ rest)
      with ((pre ++ [s2]) ++ (h :: sh) ++ rest)
      by (rewrite <- app_assoc; reflexivity).
    rewrite <- (len_snoc pre s2).
    cbn [app]. rewrite index_app_at. cbn [bind].
    rewrite (Hfree h) by (left; reflexivity). cbn [negb].
    replace (Ascii.eqb h "."%char) with false.
    2:{ symmetry. apply Ascii.eqb_neq. intros ->. apply Hdot. reflexivity. }
    replace (Z.to_nat (len ((pre ++ [s2]) ++ h :: sh ++ rest)
                       - len (pre ++ [s2])))
      with (List.length ((h :: sh) ++ rest))
      by (rewrite len_app; unfold len; cbn [app]; lia).
    change (h :: sh ++ rest) with ((h :: sh) ++ rest).
    rewrite scanShare_run by assumption.
    f_equal. rewrite len_snoc, len_nil. lia.
  - cbn [app List.length Nat.add scanServer].
    rewrite index_app_at. cbn [bind].
    rewrite (Hsrv x) by (left; reflexivity).
    replace (pre ++ x :: srv ++ s2 :: share ++ rest)
      with ((pre ++ [x]) ++ srv ++ s2 :: share ++ rest)
      by (rewrite <- app_assoc; reflexivity).
    rewrite <- (len_snoc pre x). rewrite IH; try assumption.
    + f_equal. rewrite len_snoc, len_cons. lia.
    + intros c Hc. apply Hsrv. now right.
Qed.

Lemma split_at_slash (s : gostring) :
  exists a b, s = a ++ b /\ slashFree a /\ slashOrEnd b.
Proof.
  induction s as [|x s (a & b & -> & Ha & Hb)].
  - exists [], []. repeat split; [intros c []|now left].
  - destruct (isSlash x) eqn:E.
    + exists [], (x :: a ++ b). repeat split; [intros c []|].
      right. exists x, (a ++ b). auto.
    + exists (x :: a), b. repeat split; [|exact Hb].
      intros c [<- | Hc]; auto.
Qed.

(** Whatever remains to be scanned, the server scan answers 0 or finds a
    slash followed by an accepted share name. *)
Lemma scanServer_inv (k : nat) :
  forall tl pre,
    List.length tl = S k ->
    scanServer (pre ++ tl) (len pre) k = Some 0
    \/ exists srv s2 share rest,
         tl = srv ++ s2 :: share ++ rest /\
         slashFree srv /\ isSlash s2 = true /\
         uncName share /\ slashOrEnd rest /\
         scanServer (pre ++ tl) (len pre) k
           = Some (len pre + len srv + 1 + len share).
Proof.
  induction k as [|k IH]; intros tl pre Hlen.
  - left. reflexivity.
  - destruct tl as [|c [|c' tl]]; try discriminate Hlen.
    cbn [scanServer]. rewrite index_app_at. cbn [bind].
    destruct (isSlash c) eqn:Ec.
    + replace (pre ++ c :: c' :: tl) with ((pre ++ [c]) ++ c' :: tl)
        by (rewrite <- app_assoc; reflexivity).
      rewrite <- (len_snoc pre c). rewrite index_app_at. cbn [bind].
      destruct (isSlash c') eqn:Ec'; cbn [negb]; [now left|].
      destruct (Ascii.eqb c' "."%char) eqn:Edot; [now left|].
      right.
      destruct (split_at_slash (c' :: tl)) as (a & b & Hab & Ha & Hb).
      assert (Hane : exists a', a = c' :: a').
      { destruct a as [|h a'].
        - cbn [app] in Hab. destruct Hb as [-> | (d & r & -> & Hd)];
            [discriminate|]. inversion Hab; subst. congruence.
        - inversion Hab; subst. now exists a'. }
      destruct Hane as (a' & ->).
      exists [], c, (c' :: a'), b.
      split; [rewrite Hab; reflexivity|].
      split; [intros d []|]. split; [exact Ec|].
      split.
      { split; [split; [discriminate|exact Ha]|].
        cbn [hd_error]. intros Heq. inversion Heq; subst.
        discriminate Edot. }
      split; [exact Hb|].
      replace (Z.to_nat (len ((pre ++ [c]) ++ c' :: tl) - len (pre ++ [c])))
        with (List.length ((c' :: a') ++ b))
        by (rewrite <- Hab, len_app; unfold len; lia).
      rewrite Hab. rewrite scanShare_run by assumption.
      f_equal. rewrite len_snoc, len_nil. lia.
    + replace (pre ++ c :: c' :: tl) with ((pre ++ [c]) ++ c' :: tl)
        by (rewrite <- app_assoc; reflexivity).
      rewrite <- (len_snoc pre c).
      destruct (IH (c' :: tl) (pre ++ [c])) as
        [H0 | (srv & s2 & share & rest & Htl & Hsrv & H2 & Hsh & Hr & Hres)].
      * simpl in Hlen |- *. lia.
      * left. exact H0.
      * right. exists (c :: srv), s2, share, rest.
        split; [rewrite Htl; reflexivity|].
        split; [intros d [<- | Hd]; auto|].
        split; [exact H2|]. split; [exact Hsh|]. split; [exact Hr|].
        rewrite Hres. f_equal. rewrite len_snoc, len_cons. lia.
Qed.

(** C7 (as the code has it).  [volumeNameLen] never panics.  It returns 0
    whenever the OS type is not Windows.  On Windows it returns 2 for every
    path beginning with an ASCII letter followed by [':']; it returns the
    index just past the share name for every path made of two slashes, a
    server name, a slash and a share name, where both names are non-empty,
    free of slashes and do not begin with ['.'], and the share name ends
    the path or is followed by a slash; it returns 0 for every other
    path. *)
Theorem volumeNameLen_spec (ost : OSType) (path : gostring) :
  (ost <> OsWindows -> volumeNameLen ost path = Some 0) /\
  (driveForm path -> volumeNameLen OsWindows path = Some 2) /\
  (forall n, uncForm path n -> volumeNameLen OsWindows path = Some n) /\
  (~ driveForm path -> (forall n, ~ uncForm path n) ->
   volumeNameLen OsWindows path = Some 0).
Proof.
  split; [|split; [|split]].
  - intros Hne. unfold volumeNameLen.
    destruct ost; try reflexivity. congruence.
  - intros (c & rest & -> & Hc). unfold volumeNameLen. cbn [OSType_eqb negb].
    replace (len (c :: ":"%char :: rest) <? 2) with false.
    2:{ symmetry. apply Z.ltb_ge. rewrite !len_cons.
        pose proof (len_nonneg rest). lia. }
    rewrite index_0, index_1. cbn [bind].
    rewrite Hc. reflexivity.
  - intros n (s0 & s1 & server & s2 & share & rest & -> & H0 & H1 & H2
              & Hsrv & Hsh & Hrest & ->).
    destruct Hsrv as [[Hsne Hsfree] Hsdot].
    destruct server as [|p2 srv]; [congruence|].
    assert (Hshne : 1 <= len share).
    { destruct Hsh as [[Hne _] _]. destruct share; [congruence|].
      rewrite len_cons. pose proof (len_nonneg share). lia. }
    pose proof (len_nonneg srv) as Hsrv0. pose proof (len_nonneg rest) as Hr0.
    set (path := s0 :: s1 :: (p2 :: srv) ++ s2 :: share ++ rest).
    assert (Hl : len path
                 = 4 + len srv + len share + len rest).
    { unfold path. cbn [app]. rewrite !len_cons, len_app, len_cons, len_app.
      lia. }
    unfold volumeNameLen. cbn [OSType_eqb negb].
    replace (len path <? 2) with false by (symmetry; apply Z.ltb_ge; lia).
    replace (len path >=? 5) with true by (symmetry; apply Z.geb_le; lia).
    unfold path at 1 2 3 4 5. cbn [app].
    rewrite index_0, index_1, index_2. cbn [bind].
    rewrite (isSlash_not_letter s0 H0), andb_false_r.
    rewrite H0, H1, (Hsfree p2) by (left; reflexivity).
    replace (Ascii.eqb p2 "."%char) with false.
    2:{ symmetry. apply Ascii.eqb_neq. intros ->. apply Hsdot. reflexivity. }
    cbn [andb negb].
    assert (Hk : Z.to_nat (len path - 1 - 3)
                 = (List.length srv + List.length (share ++ rest))%nat).
    { rewrite Hl, length_app. unfold len. lia. }
    rewrite Hk.
    change path with ([s0; s1; p2] ++ srv ++ s2 :: share ++ rest).
    change 3 with (len [s0; s1; p2]).
    rewrite scanServer_run; try assumption.
    + apply f_equal. rewrite !len_cons, len_nil. lia.
    + intros c Hc. apply Hsfree. now right.
  - intros Hnd Hnu. unfold volumeNameLen. cbn [OSType_eqb negb].
    destruct (len path <? 2) eqn:E2; [reflexivity|]. apply Z.ltb_ge in E2.
    destruct path as [|c [|c1 tl]];
      try (rewrite ?len_cons, len_nil in E2; lia).
    rewrite index_0, index_1. cbn [bind].
    destruct (Ascii.eqb c1 ":"%char && isLetter c) eqn:Ed.
    { exfalso. apply andb_true_iff in Ed. destruct Ed as [Ec1 Ec].
      apply Ascii.eqb_eq in Ec1. subst c1. apply Hnd. now exists c, tl. }
    destruct (len (c :: c1 :: tl) >=? 5) eqn:E5; [|reflexivity].
    rewrite Z.geb_leb in E5. apply Z.leb_le in E5.
    destruct tl as [|p2 tl3];
      [rewrite !len_cons, len_nil in E5; lia|].
    rewrite ?index_0, ?index_1, index_2. cbn [bind].
    destruct (isSlash c && isSlash c1 && negb (isSlash p2)
              && negb (Ascii.eqb p2 "."%char)) eqn:Eu; [|reflexivity].
    apply andb_true_iff in Eu. destruct Eu as [Eu Edot].
    apply andb_true_iff in Eu. destruct Eu as [Eu Ep2].
    apply andb_true_iff in Eu. destruct Eu as [Ec Ec1].
    apply negb_true_iff in Edot. apply negb_true_iff in Ep2.
    assert (Hk : List.length tl3
                 = S (Z.to_nat (len (c :: c1 :: p2 :: tl3) - 1 - 3))).
    { rewrite !len_cons in *. unfold len in *. lia. }
    change (c :: c1 :: p2 :: tl3) with ([c; c1; p2] ++ tl3) at 2.
    change 3 with (len [c; c1; p2]) at 2.
    destruct (scanServer_inv _ tl3 [c; c1; p2] Hk) as
      [H0 | (srv & s2 & share & rest & Htl & Hsrv & H2 & Hsh & Hr & _)].
    + exact H0.
    + exfalso.
      apply (Hnu (2 + len (p2 :: srv) + 1 + len share)).
      exists c, c1, (p2 :: srv), s2, share, rest.
      split; [rewrite Htl; reflexivity|].
      repeat (split; [assumption|]).
      split; [|split; [assumption|split; [assumption|reflexivity]]].
      split; [split; [discriminate|]|].
      * intros d [<- | Hd]; auto.
      * cbn [hd_error]. intros Heq. inversion Heq; subst. discriminate Edot.
Qed.

Ltac slash_free :=
  let c := fresh "c" in
  let Hc := fresh "Hc" in
  intros c Hc; simpl in Hc;
  repeat (destruct Hc as [<- | Hc]; [reflexivity|]); contradiction.

Lemma volumeNameLen_spec_witness :
  volumeNameLen OsLinux (str "C:\a") = Some 0 /\
  volumeNameLen OsWindows (str "C:\a") = Some 2 /\
  volumeNameLen OsWindows (str "\\srv\share\x") = Some 11 /\
  volumeNameLen OsWindows (str "ab") = Some 0.
Proof.
  split; [|split; [|split]].
  - apply (proj1 (volumeNameLen_spec OsLinux (str "C:\a"))). discriminate.
  - apply (proj1 (proj2 (volumeNameLen_spec OsWindows (str "C:\a")))).
    exists "C"%char, (str "\a"). split; reflexivity.
  - apply (proj1 (proj2 (proj2
             (volumeNameLen_spec OsWindows (str "\\srv\share\x")))) 11).
    exists "\"%char, "\"%char, (str "srv"), "\"%char, (str "share"),
      (str "\x").
    split; [reflexivity|]. split; [reflexivity|]. split; [reflexivity|].
    split; [reflexivity|].
    split; [split; [split; [discriminate|slash_free]|discriminate]|].
    split; [split; [split; [discriminate|slash_free]|discriminate]|].
    split; [|reflexivity].
    right. exists "\"%char, (str "x"). split; reflexivity.
  - apply (proj2 (proj2 (proj2 (volumeNameLen_spec OsWindows (str "ab"))))).
    + intros (c & rest & Heq & _). discriminate Heq.
    + intros n (s0 & s1 & server & s2 & share & rest & Heq & _).
      destruct server; discriminate Heq.
Defined.

(** The path [\\srv\.share] is two slashes, the server name [srv], a slash
    and the share name [.share], both names non-empty and free of slashes;
    the scanner answers 0 and not the index just past the share name. *)
Lemma volumeNameLen_dot_share :
  str "\\srv\.share"
    = "\"%char :: "\"%char :: str "srv" ++ "\"%char :: str ".share" ++ []
  /\ plainName (str "srv")
  /\ plainName (str ".share")
  /\ volumeNameLen OsWindows (str "\\srv\.share") = Some 0
  /\ volumeNameLen OsWindows (str "\\srv\.share")
     <> Some (2 + len (str "srv") + 1 + len (str ".share")).
Proof.
  split; [reflexivity|].
  split; [split; [discriminate|slash_free]|].
  split; [split; [discriminate|slash_free]|].
  split; [reflexivity|].
  vm_compute. discriminate.
Qed.

Lemma ReplacePart_positioned_witness :
  ReplacePart (mkPathIterator (str "/a/b/c") 3 4 0 posixUtils) (str "x/y")
    = Some (mkPathIterator (str "/a/x/y/c") 3 2 0 posixUtils, false).
Proof.
  assert (H1 : 0 <= 3 <= 4) by lia.
  assert (H2 : 4 <= len (str "/a/b/c")) by (vm_compute; discriminate).
  exact (proj1 (proj2 (proj2
           (ReplacePart_positioned
              (mkPathIterator (str "/a/b/c") 3 4 0 posixUtils) (str "x/y")
              H1 H2)))).
Defined.

(** Two calls of [Next] on ["/a/b/c"] position the iterator on ["b"].
    Replacing that part by the absolute path ["/a/x"] gives ["/a/x/c"],
    which still begins with ["/a/"]: the cursor is put at 2, not at the
    volume-name length 0, and false is returned.  So an absolute
    replacement does not always reset the cursor to the volume root. *)
Lemma ReplacePart_absolute_keeps_prefix :
  (r1 <- Next (NewPathIterator posixUtils (str "/a/b/c")) ;;
   r2 <- Next (fst r1) ;; Some r2)
    = Some (mkPathIterator (str "/a/b/c") 3 4 0 posixUtils, true)
  /\ IsAbs posixUtils (str "/a/x") = true
  /\ ReplacePart (mkPathIterator (str "/a/b/c") 3 4 0 posixUtils) (str "/a/x")
     = Some (mkPathIterator (str "/a/x/c") 3 2 0 posixUtils, false)
  /\ ~ (forall pi newPath r b,
          0 <= start pi <= end_ pi -> end_ pi <= len (path pi) ->
          IsAbs (ut pi) newPath = true ->
          ReplacePart pi newPath = Some (r, b) ->
          end_ r = volumeNameLen_ r /\ b = true).
Proof.
  split; [reflexivity|]. split; [reflexivity|]. split; [reflexivity|].
  intros Hall.
  destruct (Hall (mkPathIterator (str "/a/b/c") 3 4 0 posixUtils)
              (str "/a/x")
              (mkPathIterator (str "/a/x/c") 3 2 0 posixUtils) false)
    as [Hend _].
  - simpl. lia.
  - vm_compute. discriminate.
  - reflexivity.
  - reflexivity.
  - discriminate Hend.
Qed.

(** A relative replacement that climbs out of the directory of the current
    part changes the path before the cursor: the iterator is reset and the
    next part emitted is the first part of the whole path. *)
Example ReplacePart_relative_dotdot :
  ReplacePart (mkPathIterator (str "/a/b/l/c") 5 6 0 posixUtils)
    (str "../b2/x")
    = Some (mkPathIterator (str "/a/b2/x/c") 5 0 0 posixUtils, true)
  /\ partsLoop 6 (mkPathIterator (str "/a/b2/x/c") 5 0 0 posixUtils)
     = Returned [(str "a", false); (str "b2", false); (str "x", false);
                 (str "c", true)].
Proof. split; reflexivity. Qed.

(* ================================================================== *)
(** * Further properties of the path iterator *)

Lemma positioned_split (p : gostring) (st e : Z) :
  0 <= st <= e -> e <= len p ->
  exists l a r, p = l ++ a ++ r /\ len l = st /\ len a = e - st.
Proof.
  intros Hse Hel.
  exists (firstn (Z.to_nat st) p),
         (firstn (Z.to_nat (e - st)) (skipn (Z.to_nat st) p)),
         (skipn (Z.to_nat (e - st)) (skipn (Z.to_nat st) p)).
  split; [|split].
  - rewrite (firstn_skipn (Z.to_nat (e - st))). symmetry. apply firstn_skipn.
  - unfold len in *. rewrite length_firstn. lia.
  - unfold len in *. rewrite length_firstn, length_skipn. lia.
Qed.

(** X1.  On an iterator positioned on a part, none of [Left], [Part],
    [Right], [LeftPart] and [RightPart] panics, and they cut the path as
    the diagram of the package says: the path is [Left] followed by [Part]
    followed by [Right], [LeftPart] is [Left] followed by [Part], and
    [RightPart] is [Part] followed by [Right]. *)
Theorem iterator_decomposition (pi : PathIterator) :
  0 <= start pi <= end_ pi ->
  end_ pi <= len (path pi) ->
  exists l a r,
    Left pi = Some l /\ Part pi = Some a /\ Right pi = Some r /\
    LeftPart pi = Some (l ++ a) /\ RightPart pi = Some (a ++ r) /\
    Path pi = l ++ a ++ r.
Proof.
  destruct pi as [p st e v u]. cbn [path start end_]. intros Hse Hel.
  destruct (positioned_split p st e Hse Hel) as (l & a & r & Hp & Hl & Ha).
  exists l, a, r. unfold Left, Part, Right, LeftPart, RightPart, Path.
  cbn [path start end_]. subst p.
  assert (Hla : len (l ++ a) = e) by (rewrite len_app; lia).
  split; [rewrite <- Hl; apply sliceTo_app|].
  split; [rewrite <- Hl at 1;
          replace e with (len l + len a) by lia; apply slice_middle|].
  split; [rewrite app_assoc, <- Hla; apply sliceFrom_app|].
  split; [rewrite app_assoc, <- Hla; apply sliceTo_app|].
  split; [rewrite <- Hl; apply sliceFrom_app|reflexivity].
Qed.

Lemma iterator_decomposition_witness :
  exists l a r,
    Left (mkPathIterator (str "/a/bc/d") 3 5 0 posixUtils) = Some l /\
    Part (mkPathIterator (str "/a/bc/d") 3 5 0 posixUtils) = Some a /\
    Right (mkPathIterator (str "/a/bc/d") 3 5 0 posixUtils) = Some r /\
    LeftPart (mkPathIterator (str "/a/bc/d") 3 5 0 posixUtils)
      = Some (l ++ a) /\
    RightPart (mkPathIterator (str "/a/bc/d") 3 5 0 posixUtils)
      = Some (a ++ r) /\
    Path (mkPathIterator (str "/a/bc/d") 3 5 0 posixUtils) = l ++ a ++ r.
Proof.
  apply (iterator_decomposition
           (mkPathIterator (str "/a/bc/d") 3 5 0 posixUtils)).
  - simpl. lia.
  - vm_compute. discriminate.
Defined.

Lemma upToSep_free (sep : ascii) (s : gostring) : ~ In sep (upToSep sep s).
Proof.
  induction s as [|x s IH]; simpl; [tauto|].
  destruct (Ascii.eqb x sep) eqn:E; [simpl; tauto|].
  apply Ascii.eqb_neq in E. simpl. intros [Hx | Hin]; auto.
Qed.

Lemma upToSep_split (sep : ascii) (s : gostring) :
  exists rest, s = upToSep sep s ++ rest
               /\ (rest = [] \/ exists r, rest = sep :: r).
Proof.
  induction s as [|x s (rest & Hs & Hr)]; simpl.
  - exists []. auto.
  - destruct (Ascii.eqb x sep) eqn:E.
    + apply Ascii.eqb_eq in E. subst x. exists (sep :: s).
      split; [reflexivity|]. right. now exists s.
    + exists rest. split; [simpl; now rewrite <- Hs|exact Hr].
Qed.

(** X2.  When [Next] returns true (from a cursor at or after [-1]) it
    leaves the path as it is, moves [start] just past the old cursor and
    the cursor strictly forward; the part it moves to contains no
    separator and is closed either by the end of the path ([IsLast]) or by
    a separator standing at [end]. *)
Theorem Next_true_part (pi pi' : PathIterator) :
  -1 <= end_ pi ->
  Next pi = Some (pi', true) ->
  path pi' = path pi /\ ut pi' = ut pi /\
  volumeNameLen_ pi' = volumeNameLen_ pi /\
  start pi' = end_ pi + 1 /\ end_ pi < end_ pi' /\
  exists part,
    Part pi' = Some part /\
    ~ In (pathSeparator (ut pi)) part /\
    (IsLast pi' = true
     \/ index (path pi') (end_ pi') = Some (pathSeparator (ut pi))).
Proof.
  destruct pi as [p st e vnl u]. cbn [end_ path ut volumeNameLen_].
  intros He Hnext.
  destruct (Z_lt_le_dec (e + 1) (len p)) as [Hlt | Hge].
  2:{ rewrite Next_done in Hnext by lia. discriminate. }
  destruct (Next_part p st e vnl u) as (Hn & Hp & Hle); [lia|].
  rewrite Hn in Hnext. inversion Hnext; subst pi'. clear Hnext Hn.
  set (sep := pathSeparator u) in *.
  set (body := skipn (Z.to_nat (e + 1)) p) in *.
  set (part := upToSep sep body) in *.
  pose proof (len_nonneg part) as Hpart0.
  cbn [path start end_ ut volumeNameLen_].
  repeat (split; [reflexivity || lia|]).
  exists part. split; [exact Hp|]. split; [apply upToSep_free|].
  destruct (upToSep_split sep body) as (rest & Hbody & Hrest).
  fold part in Hbody.
  assert (Hpath : p = firstn (Z.to_nat (e + 1)) p ++ part ++ rest).
  { rewrite <- Hbody. symmetry. apply firstn_skipn. }
  assert (Hpre : len (firstn (Z.to_nat (e + 1)) p) = e + 1).
  { unfold len in *. rewrite length_firstn. lia. }
  assert (Hlenp : len p = e + 1 + len part + len rest).
  { rewrite Hpath, !len_app, Hpre. lia. }
  destruct Hrest as [-> | (r & ->)].
  - left. unfold IsLast. cbn [end_ path]. apply Z.eqb_eq.
    rewrite Hlenp, len_nil. lia.
  - right. rewrite Hpath at 1. rewrite app_assoc.
    replace (e + 1 + len part)
      with (len (firstn (Z.to_nat (e + 1)) p ++ part))
      by (rewrite len_app; lia).
    apply index_app_at.
Qed.

Lemma Next_true_part_witness :
  exists part,
    Part (mkPathIterator (str "/a/bc/d") 3 5 0 posixUtils) = Some part /\
    ~ In "/"%char part /\
    (IsLast (mkPathIterator (str "/a/bc/d") 3 5 0 posixUtils) = true
     \/ index (str "/a/bc/d") 5 = Some "/"%char).
Proof.
  assert (H1 : -1 <= end_ (mkPathIterator (str "/a/bc/d") 1 2 0 posixUtils))
    by (simpl; lia).
  exact (proj2 (proj2 (proj2 (proj2 (proj2
           (Next_true_part
              (mkPathIterator (str "/a/bc/d") 1 2 0 posixUtils)
              (mkPathIterator (str "/a/bc/d") 3 5 0 posixUtils)
              H1 eq_refl)))))).
Defined.

Lemma splitOn_nonempty (sep : ascii) (s : gostring) : splitOn sep s <> [].
Proof.
  destruct s as [|x s]; simpl; [discriminate|].
  destruct (Ascii.eqb x sep); [discriminate|].
  destruct (splitOn sep s); discriminate.
Qed.

Lemma flagPieces_cons (a : gostring) (l : list gostring) :
  l <> [] -> flagPieces (a :: l) = (a, false) :: flagPieces l.
Proof. destruct l; [congruence|reflexivity]. Qed.

Lemma skipn_app_exact (a b : gostring) (n : Z) :
  n = len a -> skipn (Z.to_nat n) (a ++ b) = b.
Proof.
  intros ->. replace (Z.to_nat (len a)) with (List.length a)
    by (unfold len; lia).
  rewrite skipn_app, skipn_all, Nat.sub_diag. reflexivity.
Qed.

(** The loop on any path: what it yields is read off the split of what
    lies after the cursor. *)
Lemma partsLoop_general (u : Utils) :
  forall (fuel : nat) (p : gostring) (st e vnl : Z),
    -1 <= e ->
    (List.length (skipn (Z.to_nat (e + 1)) p) < fuel)%nat ->
    partsLoop fuel (mkPathIterator p st e vnl u)
      = Returned
          (flagPieces
             (splitOn (pathSeparator u) (skipn (Z.to_nat (e + 1)) p))).
Proof.
  induction fuel as [|fuel IH]; intros p st e vnl He Hf; [lia|].
  set (sep := pathSeparator u) in *.
  destruct (Z_lt_le_dec (e + 1) (len p)) as [Hlt | Hge].
  - destruct (Next_part p st e vnl u) as (Hn & Hp & Hle); [lia|].
    fold sep in Hn, Hp, Hle.
    set (body := skipn (Z.to_nat (e + 1)) p) in *.
    set (part := upToSep sep body) in *.
    cbn [partsLoop]. rewrite Hn, Hp.
    pose proof (len_nonneg part) as Hpart0.
    destruct (upToSep_split sep body) as (rest & Hbody & Hrest).
    fold part in Hbody.
    assert (Hpath : p = firstn (Z.to_nat (e + 1)) p ++ part ++ rest).
    { rewrite <- Hbody. symmetry. apply firstn_skipn. }
    assert (Hpre : len (firstn (Z.to_nat (e + 1)) p) = e + 1).
    { unfold len in *. rewrite length_firstn. lia. }
    assert (Hlenp : len p = e + 1 + len part + len rest).
    { rewrite Hpath, !len_app, Hpre. lia. }
    assert (Hblen : len body = len part + len rest).
    { rewrite Hbody, len_app. reflexivity. }
    pose proof (upToSep_free sep body) as Hfree. fold part in Hfree.
    assert (Hfb : (List.length body < S fuel)%nat) by exact Hf.
    clearbody part body.
    destruct Hrest as [-> | (r & ->)].
    + rewrite len_nil in *. rewrite app_nil_r in Hbody.
      assert (Hbody0 : skipn (Z.to_nat (e + 1 + len part + 1)) p = []).
      { apply skipn_all2. unfold len in *. lia. }
      rewrite IH; [|lia|rewrite Hbody0; unfold len in *; simpl; lia].
      rewrite Hbody0. unfold IsLast. cbn [end_ path].
      replace (e + 1 + len part =? len p) with true
        by (symmetry; apply Z.eqb_eq; lia).
      rewrite Hbody, (splitOn_no_sep sep part Hfree). simpl.
      destruct part; [rewrite len_nil in *; lia|reflexivity].
    + assert (Hbody1 : skipn (Z.to_nat (e + 1 + len part + 1)) p = r).
      { rewrite Hpath.
        replace (firstn (Z.to_nat (e + 1)) p ++ part ++ sep :: r)
          with ((firstn (Z.to_nat (e + 1)) p ++ part ++ [sep]) ++ r)
          by (rewrite <- !app_assoc; reflexivity).
        apply skipn_app_exact. rewrite !len_app, Hpre, len_cons, len_nil.
        lia. }
      rewrite len_cons in *. pose proof (len_nonneg r) as Hr0.
      rewrite IH; [|lia|rewrite Hbody1; unfold len in *; lia].
      rewrite Hbody1. unfold IsLast. cbn [end_ path].
      replace (e + 1 + len part =? len p) with false
        by (symmetry; apply Z.eqb_neq; lia).
      rewrite Hbody, (splitOn_at_sep sep part r Hfree).
      rewrite flagPieces_cons by apply splitOn_nonempty. reflexivity.
  - cbn [partsLoop]. rewrite Next_done by lia.
    replace (skipn (Z.to_nat (e + 1)) p) with (@nil ascii).
    + simpl. reflexivity.
    + symmetry. apply skipn_all2. unfold len in *. lia.
Qed.

(** X3.  On every path, clean or not, the iteration
    [for pi.Next() { pi.Part() }] of a fresh iterator ends without panic
    (the volume-name length being at least [-1], as every volume-name
    length is).  It skips the byte that follows the volume name and yields
    every piece of the rest between separators, empty pieces included,
    except an empty piece at the very end; [IsLast] is true on the piece
    that reaches the end of the path and on no other. *)
Theorem iterate_any_path (u : Utils) (p : gostring) :
  -1 <= VolumeNameLen u p ->
  iterateParts u p
    = Returned
        (flagPieces
           (splitOn (pathSeparator u)
              (afterVolume (VolumeNameLen u p + 1) p))).
Proof.
  intros Hv. unfold iterateParts, NewPathIterator, Reset, set_end.
  cbn [path start end_ volumeNameLen_ ut]. unfold afterVolume.
  apply partsLoop_general; [exact Hv|].
  rewrite length_skipn. lia.
Qed.

Lemma iterate_any_path_witness :
  iterateParts posixUtils (str "/a//bc/")
    = Returned [(str "a", false); ([], false); (str "bc", false)].
Proof.
  assert (Hv : -1 <= VolumeNameLen posixUtils (str "/a//bc/"))
    by (vm_compute; discriminate).
  exact (iterate_any_path posixUtils (str "/a//bc/") Hv).
Defined.

(** X4.  When [Next] returns false the path is exhausted: [start] and the
    cursor both stand one past the old cursor, every further [Next]
    returns false again (moving the cursor one further), and [Part] is the
    empty string only if the old cursor stood on the last byte of the
    path; when it stood at the end of the path, as after a final part,
    [Part] panics. *)
Theorem Next_false_exhausted (pi pi' : PathIterator) :
  -1 <= end_ pi ->
  Next pi = Some (pi', false) ->
  len (path pi) <= end_ pi + 1 /\
  path pi' = path pi /\
  start pi' = end_ pi + 1 /\ end_ pi' = end_ pi + 1 /\
  Next pi'
    = Some (mkPathIterator (path pi) (end_ pi + 2) (end_ pi + 2)
              (volumeNameLen_ pi) (ut pi), false) /\
  (end_ pi + 1 = len (path pi) -> Part pi' = Some []) /\
  (len (path pi) < end_ pi + 1 -> Part pi' = None).
Proof.
  destruct pi as [p st e vnl u]. cbn [end_ path ut volumeNameLen_].
  intros He Hnext.
  destruct (Z_lt_le_dec (e + 1) (len p)) as [Hlt | Hge].
  { destruct (Next_part p st e vnl u) as (Hn & _ & _); [lia|].
    rewrite Hn in Hnext. discriminate. }
  rewrite Next_done in Hnext by lia. inversion Hnext; subst pi'.
  cbn [path start end_]. split; [exact Hge|].
  split; [reflexivity|]. split; [reflexivity|]. split; [reflexivity|].
  split; [|split].
  - rewrite Next_done by lia.
    replace (e + 1 + 1) with (e + 2) by lia. reflexivity.
  - intros Heq. unfold Part, slice. cbn [path start end_].
    replace ((0 <=? e + 1) && (e + 1 <=? e + 1) && (e + 1 <=? len p))
      with true by (symmetry; rewrite !andb_true_iff, !Z.leb_le; lia).
    rewrite Z.sub_diag. reflexivity.
  - intros Hgt. unfold Part, slice. cbn [path start end_].
    replace (e + 1 <=? len p) with false
      by (symmetry; apply Z.leb_gt; lia).
    rewrite andb_false_r. reflexivity.
Qed.

Lemma Next_false_exhausted_witness :
  Part (mkPathIterator (str "/a") 3 3 0 posixUtils) = None.
Proof.
  assert (H1 : -1 <= end_ (mkPathIterator (str "/a") 1 2 0 posixUtils))
    by (simpl; lia).
  assert (H2 : len (path (mkPathIterator (str "/a") 1 2 0 posixUtils))
               < end_ (mkPathIterator (str "/a") 1 2 0 posixUtils) + 1)
    by (vm_compute; reflexivity).
  exact (proj2 (proj2 (proj2 (proj2 (proj2 (proj2
           (Next_false_exhausted
              (mkPathIterator (str "/a") 1 2 0 posixUtils)
              (mkPathIterator (str "/a") 3 3 0 posixUtils)
              H1 eq_refl)))))) H2).
Defined.

(* ================================================================== *)
(** * Further properties of volume names *)

Lemma volumeNameLen_other (ost : OSType) (path : gostring) :
  ost <> OsWindows -> volumeNameLen ost path = Some 0.
Proof.
  intros Hne. unfold volumeNameLen. destruct ost; try reflexivity. congruence.
Qed.

Lemma volumeNameLen_drive (path : gostring) :
  driveForm path -> volumeNameLen OsWindows path = Some 2.
Proof.
  intros (c & rest & -> & Hc). unfold volumeNameLen. cbn [OSType_eqb negb].
  replace (len (c :: ":"%char :: rest) <? 2) with false.
  2:{ symmetry. apply Z.ltb_ge. rewrite !len_cons.
      pose proof (len_nonneg rest). lia. }
  rewrite index_0, index_1. cbn [bind]. rewrite Hc. reflexivity.
Qed.

Lemma volumeNameLen_unc (path : gostring) (n : Z) :
  uncForm path n -> volumeNameLen OsWindows path = Some n.
Proof.
  intros (s0 & s1 & server & s2 & share & rest & -> & H0 & H1 & H2
          & Hsrv & Hsh & Hrest & ->).
  destruct Hsrv as [[Hsne Hsfree] Hsdot].
  destruct server as [|p2 srv]; [congruence|].
  assert (Hshne : 1 <= len share).
  { destruct Hsh as [[Hne _] _]. destruct share; [congruence|].
    rewrite len_cons. pose proof (len_nonneg share). lia. }
  pose proof (len_nonneg srv) as Hsrv0. pose proof (len_nonneg rest) as Hr0.
  set (path := s0 :: s1 :: (p2 :: srv) ++ s2 :: share ++ rest).
  assert (Hl : len path = 4 + len srv + len share + len rest).
  { unfold path. cbn [app]. rewrite !len_cons, len_app, len_cons, len_app.
    lia. }
  unfold volumeNameLen. cbn [OSType_eqb negb].
  replace (len path <? 2) with false by (symmetry; apply Z.ltb_ge; lia).
  replace (len path >=? 5) with true by (symmetry; apply Z.geb_le; lia).
  unfold path at 1 2 3 4 5. cbn [app].
  rewrite index_0, index_1, index_2. cbn [bind].
  rewrite (isSlash_not_letter s0 H0), andb_false_r.
  rewrite H0, H1, (Hsfree p2) by (left; reflexivity).
  replace (Ascii.eqb p2 "."%char) with false.
  2:{ symmetry. apply Ascii.eqb_neq. intros ->. apply Hsdot. reflexivity. }
  cbn [andb negb].
  assert (Hk : Z.to_nat (len path - 1 - 3)
               = (List.length srv + List.length (share ++ rest))%nat).
  { rewrite Hl, length_app. unfold len. lia. }
  rewrite Hk.
  change path with ([s0; s1; p2] ++ srv ++ s2 :: share ++ rest).
  change 3 with (len [s0; s1; p2]).
  rewrite scanServer_run; try assumption.
  + apply f_equal. rewrite !len_cons, len_nil. lia.
  + intros c Hc. apply Hsfree. now right.
Qed.

(** On Windows a path is a drive-letter path, a UNC path the scanner
    accepts, or has no volume name. *)
Lemma volumeNameLen_cases (path : gostring) :
  (driveForm path /\ volumeNameLen OsWindows path = Some 2)
  \/ (exists n, uncForm path n /\ volumeNameLen OsWindows path = Some n)
  \/ volumeNameLen OsWindows path = Some 0.
Proof.
  unfold volumeNameLen at 3. cbn [OSType_eqb negb].
  destruct (len path <? 2) eqn:E2; [now right; right|].
  apply Z.ltb_ge in E2.
  destruct path as [|c [|c1 tl]];
    try (rewrite ?len_cons, len_nil in E2; lia).
  rewrite index_0, index_1. cbn [bind].
  destruct (Ascii.eqb c1 ":"%char && isLetter c) eqn:Ed.
  { left. apply andb_true_iff in Ed. destruct Ed as [Ec1 Ec].
    apply Ascii.eqb_eq in Ec1. subst c1.
    assert (Hd : driveForm (c :: ":"%char :: tl)) by now exists c, tl.
    split; [exact Hd|now apply volumeNameLen_drive]. }
  destruct (len (c :: c1 :: tl) >=? 5) eqn:E5; [|now right; right].
  rewrite Z.geb_leb in E5. apply Z.leb_le in E5.
  destruct tl as [|p2 tl3];
    [rewrite !len_cons, len_nil in E5; lia|].
  rewrite ?index_0, ?index_1, index_2. cbn [bind].
  destruct (isSlash c && isSlash c1 && negb (isSlash p2)
            && negb (Ascii.eqb p2 "."%char)) eqn:Eu; [|now right; right].
  apply andb_true_iff in Eu. destruct Eu as [Eu Edot].
  apply andb_true_iff in Eu. destruct Eu as [Eu Ep2].
  apply andb_true_iff in Eu. destruct Eu as [Ec Ec1].
  apply negb_true_iff in Edot. apply negb_true_iff in Ep2.
  assert (Hk : List.length tl3
               = S (Z.to_nat (len (c :: c1 :: p2 :: tl3) - 1 - 3))).
  { rewrite !len_cons in *. unfold len in *. lia. }
  change (c :: c1 :: p2 :: tl3) with ([c; c1; p2] ++ tl3) at 3.
  change 3 with (len [c; c1; p2]) at 2.
  destruct (scanServer_inv _ tl3 [c; c1; p2] Hk) as
    [H0 | (srv & s2 & share & rest & Htl & Hsrv & H2 & Hsh & Hr & _)].
  - right; right. exact H0.
  - right; left. exists (2 + len (p2 :: srv) + 1 + len share).
    assert (Hu : uncForm (c :: c1 :: p2 :: tl3)
                   (2 + len (p2 :: srv) + 1 + len share)).
    { exists c, c1, (p2 :: srv), s2, share, rest.
      split; [rewrite Htl; reflexivity|].
      repeat (split; [assumption|]).
      split; [|split; [assumption|split; [assumption|reflexivity]]].
      split; [split; [discriminate|]|].
      * intros d [<- | Hd]; auto.
      * cbn [hd_error]. intros Heq. inversion Heq; subst. discriminate Edot. }
    split; [exact Hu|]. exact (volumeNameLen_unc _ _ Hu).
Qed.

Lemma uncForm_len (path : gostring) (n : Z) :
  uncForm path n -> 5 <= n <= len path.
Proof.
  intros (s0 & s1 & server & s2 & share & rest & -> & _ & _ & _
          & [[Hsne _] _] & [[Hshne _] _] & _ & ->).
  rewrite !len_cons, len_app, len_cons, len_app.
  destruct server; [congruence|]. destruct share; [congruence|].
  rewrite !len_cons.
  pose proof (len_nonneg server). pose proof (len_nonneg share).
  pose proof (len_nonneg rest). lia.
Qed.

Lemma volumeNameLen_range (ost : OSType) (path : gostring) :
  exists n, volumeNameLen ost path = Some n
            /\ 0 <= n <= len path /\ (n = 0 \/ n = 2 \/ 5 <= n).
Proof.
  pose proof (len_nonneg path) as Hl.
  destruct (OSType_eqb ost OsWindows) eqn:E.
  - apply OSType_eqb_eq in E. subst ost.
    destruct (volumeNameLen_cases path) as
      [[(c & rest & -> & _) Hv] | [(n & Hu & Hv) | Hv]].
    + exists 2. split; [exact Hv|]. rewrite !len_cons.
      pose proof (len_nonneg rest). lia.
    + exists n. split; [exact Hv|]. pose proof (uncForm_len _ _ Hu). lia.
    + exists 0. split; [exact Hv|]. lia.
  - exists 0. split; [|lia]. apply volumeNameLen_other.
    intros ->. discriminate E.
Qed.

(** X5.  [volumeNameLen] never panics and its result is an index into the
    path: it lies between 0 and the length of the path, and is 0, 2 or at
    least 5.  So [VolumeName] of an iterator that stores this length does
    not panic and returns that many leading bytes of the path. *)
Theorem volumeNameLen_bounds (ost : OSType) (p : gostring) :
  exists n,
    volumeNameLen ost p = Some n /\
    0 <= n <= len p /\ (n = 0 \/ n = 2 \/ 5 <= n) /\
    forall st e u,
      VolumeName (mkPathIterator p st e n u)
        = Some (firstn (Z.to_nat n) p).
Proof.
  destruct (volumeNameLen_range ost p) as (n & Hv & Hr & Hk).
  exists n. repeat (split; [assumption|]).
  intros st e u. unfold VolumeName. cbn [path volumeNameLen_].
  apply sliceTo_firstn. exact Hr.
Qed.

Lemma firstn_app_exact (a b : gostring) (n : Z) :
  n = len a -> firstn (Z.to_nat n) (a ++ b) = a.
Proof.
  intros ->. replace (Z.to_nat (len a)) with (List.length a)
    by (unfold len; lia).
  rewrite firstn_app, firstn_all, Nat.sub_diag. simpl. apply app_nil_r.
Qed.

(** The volume name stays the volume name when what follows it is
    replaced by nothing or by something that begins with a slash. *)
Lemma volumeNameLen_prefix_stable (ost : OSType) (p q : gostring) (n : Z) :
  volumeNameLen ost p = Some n ->
  0 < n ->
  slashOrEnd q ->
  volumeNameLen ost (firstn (Z.to_nat n) p ++ q) = Some n.
Proof.
  intros Hv Hn Hq.
  destruct (OSType_eqb ost OsWindows) eqn:E.
  2:{ rewrite volumeNameLen_other in Hv by (intros ->; discriminate E).
      inversion Hv. lia. }
  apply OSType_eqb_eq in E. subst ost.
  destruct (volumeNameLen_cases p) as
    [[(c & rest & -> & Hc) Hv2] | [(m & Hu & Hvm) | Hv0]].
  - rewrite Hv in Hv2. inversion Hv2; subst n.
    apply volumeNameLen_drive. exists c, q. split; [reflexivity|exact Hc].
  - rewrite Hv in Hvm. inversion Hvm; subst m.
    destruct Hu as (s0 & s1 & server & s2 & share & rest & -> & H0 & H1 & H2
                    & Hsrv & Hsh & Hrest & Hn').
    apply volumeNameLen_unc.
    exists s0, s1, server, s2, share, q.
    split.
    { replace (s0 :: s1 :: server ++ s2 :: share ++ rest)
        with ((s0 :: s1 :: server ++ s2 :: share) ++ rest)
        by (cbn [app]; rewrite <- app_assoc; reflexivity).
      rewrite firstn_app_exact.
      - cbn [app]. rewrite <- app_assoc. reflexivity.
      - rewrite Hn', !len_cons, len_app, len_cons. lia. }
    repeat (split; [assumption|]). exact Hn'.
  - rewrite Hv in Hv0. inversion Hv0. lia.
Qed.

(** X6.  The volume name of a volume name is the volume name itself:
    cutting a path after its volume name and measuring again gives the
    same length. *)
Theorem volumeNameLen_idempotent (ost : OSType) (p : gostring) :
  (n <- volumeNameLen ost p ;;
   volumeNameLen ost (firstn (Z.to_nat n) p))
    = volumeNameLen ost p.
Proof.
  destruct (volumeNameLen_range ost p) as (n & Hv & Hr & _).
  rewrite Hv. cbn [bind].
  destruct (Z.eq_dec n 0) as [-> | Hn].
  - simpl firstn. destruct ost; reflexivity.
  - rewrite <- (app_nil_r (firstn (Z.to_nat n) p)).
    apply volumeNameLen_prefix_stable; [exact Hv|lia|now left].
Qed.

(** X7.  A non-empty volume name only depends on the bytes it is made of:
    whatever slash-led remainder is put behind the volume name of a path,
    the volume name of the result has the same length. *)
Theorem volumeNameLen_rooted_suffix
  (ost : OSType) (p q : gostring) (n : Z) (c : ascii) :
  volumeNameLen ost p = Some n ->
  0 < n ->
  isSlash c = true ->
  volumeNameLen ost (firstn (Z.to_nat n) p ++ c :: q) = Some n.
Proof.
  intros Hv Hn Hc. apply volumeNameLen_prefix_stable; try assumption.
  right. exists c, q. split; [reflexivity|exact Hc].
Qed.

Lemma volumeNameLen_rooted_suffix_witness :
  volumeNameLen OsWindows
    (firstn (Z.to_nat 11) (str "\\srv\share\x") ++ "/"%char :: str "y\z")
    = Some 11.
Proof.
  assert (Hn : 0 < 11) by lia.
  exact (volumeNameLen_rooted_suffix OsWindows (str "\\srv\share\x")
           (str "y\z") 11 "/"%char eq_refl Hn eq_refl).
Defined.

(* ================================================================== *)
(** * Glob helpers *)

Lemma index_in_range (s : gostring) (i : Z) :
  0 <= i < len s -> exists c, index s i = Some c.
Proof.
  intros Hr. unfold index.
  replace (i <? 0) with false by (symmetry; apply Z.ltb_ge; lia).
  destruct (nth_error s (Z.to_nat i)) eqn:E; [eauto|].
  apply nth_error_None in E. unfold len in Hr. lia.
Qed.

Lemma slice_chop (path : gostring) :
  path <> [] ->
  slice path 0 (len path - 1) = Some (removelast path)
  /\ len (removelast path) = len path - 1.
Proof.
  intros Hne.
  assert (Hl : 1 <= len path).
  { destruct path as [|x xs]; [congruence|]. rewrite len_cons.
    pose proof (len_nonneg xs). lia. }
  change (slice path 0 (len path - 1)) with (sliceTo path (len path - 1)).
  rewrite sliceTo_firstn by lia.
  rewrite removelast_firstn_len.
  replace (Z.to_nat (len path - 1)) with (Nat.pred (List.length path))
    by (unfold len in *; lia).
  split; [reflexivity|].
  unfold len in *. rewrite length_firstn. lia.
Qed.

Lemma runeString_nonempty (c : ascii) : runeString c <> [].
Proof. unfold runeString. destruct (byte c <? 128); discriminate. Qed.

Lemma runeString_ascii (c : ascii) : byte c < 128 -> runeString c = [c].
Proof.
  intros Hc. unfold runeString.
  replace (byte c <? 128) with true by (symmetry; apply Z.ltb_lt; lia).
  reflexivity.
Qed.

(** X8.  [cleanGlobPath] never panics.  The empty path becomes ["."], the
    path that is [string(pathSeparator)] stays (one byte for an ASCII
    separator), and from every other path exactly the last byte is
    removed, whether it is a separator or not. *)
Theorem cleanGlobPath_chops (sep : ascii) (path : gostring) :
  cleanGlobPath sep [] = Some (str ".") /\
  cleanGlobPath sep (runeString sep) = Some (runeString sep) /\
  (byte sep < 128 -> cleanGlobPath sep [sep] = Some [sep]) /\
  (path <> [] -> path <> runeString sep ->
   cleanGlobPath sep path = Some (removelast path)
   /\ exists c, path = removelast path ++ [c]).
Proof.
  assert (Hself : cleanGlobPath sep (runeString sep)
                  = Some (runeString sep)).
  { unfold cleanGlobPath.
    rewrite (proj2 (gostring_eqb_neq (runeString sep) []))
      by apply runeString_nonempty.
    rewrite gostring_eqb_refl. reflexivity. }
  split; [reflexivity|]. split; [exact Hself|]. split.
  - intros Hc. rewrite <- (runeString_ascii sep Hc). exact Hself.
  - intros Hne Hns. unfold cleanGlobPath.
    rewrite (proj2 (gostring_eqb_neq path [])) by exact Hne.
    rewrite (proj2 (gostring_eqb_neq path (runeString sep))) by exact Hns.
    split; [apply slice_chop; exact Hne|].
    exists (last path Ascii.zero). now apply app_removelast_last.
Qed.

Lemma cleanGlobPath_chops_witness :
  cleanGlobPath "/"%char (str "/") = Some (str "/") /\
  cleanGlobPath "/"%char (str "/usr/lib") = Some (str "/usr/li").
Proof.
  split.
  - apply (proj1 (proj2 (proj2 (cleanGlobPath_chops "/"%char [])))).
    reflexivity.
  - exact (proj1 (proj2 (proj2 (proj2
                    (cleanGlobPath_chops "/"%char (str "/usr/lib"))))
                    ltac:(discriminate) ltac:(discriminate))).
Defined.

(** X9.  [cleanGlobPathWindows] never panics, on any OS type and whatever
    [IsPathSeparator] answers, and the prefix length it returns is an
    index into the cleaned path it returns:
    [0 <= prefixLen <= len(cleaned)]. *)
Theorem cleanGlobPathWindows_bounds
  (ost : OSType) (isSep : ascii -> bool) (path : gostring) :
  exists prefixLen cleaned,
    cleanGlobPathWindows ost isSep path = Some (prefixLen, cleaned)
    /\ 0 <= prefixLen <= len cleaned.
Proof.
  unfold cleanGlobPathWindows.
  destruct (volumeNameLen_range ost path) as (v & Hv & Hr & _).
  rewrite Hv. cbn [bind].
  destruct (gostring_eqb path []) eqn:Ee.
  { exists 0, (str "."). split; [reflexivity|]. vm_compute. split; discriminate. }
  apply gostring_eqb_neq in Ee.
  destruct (slice_chop path Ee) as [Hs Hsl]. pose proof (len_nonneg path).
  assert (Hl : 1 <= len path) by (pose proof (len_nonneg (removelast path)); lia).
  assert (Hroot : exists b,
    (if v + 1 =? len path
     then c <- index path (len path - 1) ;; Some (isSep c)
     else Some false) = Some b /\ (b = true -> v + 1 = len path)).
  { destruct (v + 1 =? len path) eqn:E1.
    - apply Z.eqb_eq in E1.
      destruct (index_in_range path (len path - 1)) as (c & Hc); [lia|].
      rewrite Hc. exists (isSep c). split; [reflexivity|auto].
    - exists false. split; [reflexivity|discriminate]. }
  destruct Hroot as (b & -> & Hb). cbn [bind]. destruct b.
  { exists (v + 1), path. split; [reflexivity|]. specialize (Hb eq_refl). lia. }
  destruct ((v =? len path) && (len path =? 2)) eqn:E3.
  { exists v, (path ++ str "."). split; [reflexivity|].
    rewrite len_app. change (len (str ".")) with 1. lia. }
  rewrite Hs. cbn [bind].
  exists (if v >=? len path then len path - 1 else v), (removelast path).
  split; [reflexivity|]. rewrite Hsl.
  destruct (v >=? len path) eqn:E4; [lia|].
  rewrite Z.geb_leb in E4. apply Z.leb_gt in E4. lia.
Qed.

(** X10.  Off Windows, where no volume name is found, with an ASCII path
    separator and an [IsPathSeparator] that accepts that separator only,
    [cleanGlobPathWindows] cleans a path exactly as [cleanGlobPath]
    does. *)
Theorem cleanGlobPathWindows_off_windows
  (ost : OSType) (sep : ascii) (isSep : ascii -> bool) (path : gostring) :
  ost <> OsWindows ->
  byte sep < 128 ->
  (forall c, isSep c = Ascii.eqb c sep) ->
  option_map snd (cleanGlobPathWindows ost isSep path)
    = cleanGlobPath sep path.
Proof.
  intros Host Hascii Hsep. unfold cleanGlobPathWindows, cleanGlobPath.
  rewrite (runeString_ascii sep Hascii).
  rewrite volumeNameLen_other by exact Host. cbn [bind].
  destruct path as [|c [|c' tl]].
  - reflexivity.
  - cbn [gostring_eqb]. rewrite len_cons, len_nil.
    cbn [Z.add Z.eqb Pos.eqb Z.sub Z.opp Z.pos_sub].
    rewrite index_0. cbn [bind]. rewrite Hsep.
    destruct (Ascii.eqb c sep); reflexivity.
  - cbn [gostring_eqb]. rewrite andb_false_r.
    pose proof (len_nonneg tl) as Ht.
    replace (0 + 1 =? len (c :: c' :: tl)) with false
      by (symmetry; apply Z.eqb_neq; rewrite !len_cons; lia).
    cbn [bind].
    replace (0 =? len (c :: c' :: tl)) with false
      by (symmetry; apply Z.eqb_neq; rewrite !len_cons; lia).
    cbn [andb].
    replace (0 >=? len (c :: c' :: tl)) with false
      by (symmetry; rewrite Z.geb_leb; apply Z.leb_gt; rewrite !len_cons; lia).
    destruct (slice (c :: c' :: tl) 0 (len (c :: c' :: tl) - 1));
      reflexivity.
Qed.

Lemma cleanGlobPathWindows_off_windows_witness :
  option_map snd
    (cleanGlobPathWindows OsLinux (fun c => Ascii.eqb c "/"%char)
       (str "/usr/"))
    = cleanGlobPath "/"%char (str "/usr/").
Proof.
  apply (cleanGlobPathWindows_off_windows OsLinux "/"%char
           (fun c => Ascii.eqb c "/"%char) (str "/usr/")).
  - discriminate.
  - reflexivity.
  - intros c. reflexivity.
Defined.

(* ================================================================== *)
(** * The lazy path buffer *)

Lemma firstn_snoc_nth (l : gostring) (n : nat) (x : ascii) :
  nth_error l n = Some x -> firstn (S n) l = firstn n l ++ [x].
Proof.
  revert n. induction l as [|y l IH]; intros [|n] Hn; simpl in *;
    try discriminate.
  - inversion Hn. reflexivity.
  - rewrite (IH n Hn). reflexivity.
Qed.

Lemma store_ok (bf : list ascii) (i : Z) (c : ascii) :
  0 <= i < len bf ->
  exists bf',
    LazyBuf.store bf i c = Some bf' /\ len bf' = len bf /\
    firstn (Z.to_nat (i + 1)) bf' = firstn (Z.to_nat i) bf ++ [c].
Proof.
  intros Hr. unfold LazyBuf.store.
  replace ((0 <=? i) && (i <? len bf)) with true
    by (symmetry; rewrite andb_true_iff, Z.leb_le, Z.ltb_lt; lia).
  eexists. split; [reflexivity|].
  assert (Hf : List.length (firstn (Z.to_nat i) bf) = Z.to_nat i).
  { rewrite length_firstn. unfold len in Hr. lia. }
  split.
  - unfold len in *. rewrite length_app, Hf. cbn [List.length].
    rewrite length_skipn. lia.
  - replace (Z.to_nat (i + 1)) with (Z.to_nat i + 1)%nat by lia.
    rewrite firstn_app, Hf.
    replace (Z.to_nat i + 1 - Z.to_nat i)%nat with 1%nat by lia.
    rewrite firstn_all2 by lia. reflexivity.
Qed.

Lemma store_out_of_range (bf : list ascii) (i : Z) (c : ascii) :
  len bf <= i -> LazyBuf.store bf i c = None.
Proof.
  intros Hr. unfold LazyBuf.store.
  replace (i <? len bf) with false by (symmetry; apply Z.ltb_ge; lia).
  now rewrite andb_false_r.
Qed.

Lemma copy_head (n : Z) (head : gostring) :
  len head <= n ->
  len (LazyBuf.copy (LazyBuf.make n) head) = n /\
  firstn (List.length head) (LazyBuf.copy (LazyBuf.make n) head) = head.
Proof.
  intros Hh. pose proof (len_nonneg head) as H0.
  unfold LazyBuf.copy, LazyBuf.make.
  rewrite repeat_length.
  rewrite (firstn_all2 head) by (unfold len in *; lia).
  split.
  - unfold len in *. rewrite length_app, length_skipn, repeat_length. lia.
  - rewrite firstn_app, firstn_all, Nat.sub_diag. simpl. apply app_nil_r.
Qed.

(** What [append] does inside the capacity of the buffer. *)
Lemma append_ok (b : LazyBuf.lazybuf) (c : ascii) :
  LazyBuf.wf b ->
  LazyBuf.w b < len (LazyBuf.path b) ->
  exists b',
    LazyBuf.append b c = Some b' /\ LazyBuf.wf b' /\
    LazyBuf.content b' = LazyBuf.content b ++ [c] /\
    LazyBuf.w b' = LazyBuf.w b + 1 /\
    LazyBuf.path b' = LazyBuf.path b /\
    LazyBuf.volAndPath b' = LazyBuf.volAndPath b /\
    LazyBuf.volLen b' = LazyBuf.volLen b /\
    (LazyBuf.buf b' = None <->
     LazyBuf.buf b = None
     /\ LazyBuf.byteAt (LazyBuf.path b) (LazyBuf.w b) = Some c).
Proof.
  destruct b as [p bf w vp vl]. unfold LazyBuf.wf.
  cbn [LazyBuf.path LazyBuf.buf LazyBuf.w]. intros [Hw Hbf] Hlt.
  unfold LazyBuf.append, LazyBuf.content.
  cbn [LazyBuf.path LazyBuf.buf LazyBuf.w LazyBuf.volAndPath LazyBuf.volLen].
  destruct bf as [bf|].
  - destruct (store_ok bf w c) as (bf' & Hs & Hl & Hf); [lia|].
    rewrite Hs. cbn [bind]. eexists. split; [reflexivity|].
    unfold LazyBuf.wf.
    cbn [LazyBuf.path LazyBuf.buf LazyBuf.w LazyBuf.volAndPath
         LazyBuf.volLen].
    split; [split; [lia|congruence]|].
    split; [exact Hf|]. repeat (split; [reflexivity|]).
    split; [discriminate|intros [Hn _]; discriminate].
  - replace (w <? len p) with true by (symmetry; apply Z.ltb_lt; lia).
    destruct (index_in_range p w) as (x & Hx); [lia|].
    unfold LazyBuf.byteAt. rewrite Hx. cbn [bind].
    assert (Hnth : nth_error p (Z.to_nat w) = Some x).
    { unfold index in Hx.
      replace (w <? 0) with false in Hx by (symmetry; apply Z.ltb_ge; lia).
      exact Hx. }
    destruct (Ascii.eqb x c) eqn:E.
    + apply Ascii.eqb_eq in E. subst x.
      eexists. split; [reflexivity|]. unfold LazyBuf.wf.
      cbn [LazyBuf.path LazyBuf.buf LazyBuf.w LazyBuf.volAndPath
           LazyBuf.volLen].
      split; [split; [lia|exact I]|].
      split.
      { replace (Z.to_nat (w + 1)) with (S (Z.to_nat w)) by lia.
        now apply firstn_snoc_nth. }
      repeat (split; [reflexivity|]). split; auto.
    + apply Ascii.eqb_neq in E.
      rewrite sliceTo_firstn by lia. cbn [bind].
      set (head := firstn (Z.to_nat w) p).
      assert (Hhl : List.length head = Z.to_nat w).
      { unfold head. rewrite length_firstn. unfold len in *. lia. }
      destruct (copy_head (len p) head) as [Hcl Hch];
        [unfold len in *; lia|].
      set (bf0 := LazyBuf.copy (LazyBuf.make (len p)) head) in *.
      destruct (store_ok bf0 w c) as (bf' & Hs & Hl & Hf); [lia|].
      rewrite Hs. cbn [bind]. eexists. split; [reflexivity|].
      unfold LazyBuf.wf.
      cbn [LazyBuf.path LazyBuf.buf LazyBuf.w LazyBuf.volAndPath
           LazyBuf.volLen].
      split; [split; [lia|congruence]|].
      split; [rewrite Hf, <- Hhl, Hch; reflexivity|].
      repeat (split; [reflexivity|]).
      split; [discriminate|].
      intros [_ Heq]. inversion Heq. congruence.
Qed.

(** X11.  Inside its capacity ([w < len(path)]) [append] does not panic
    and adds exactly the byte [c] at the end of what was appended so far;
    the path, the volume part and the shape the code relies on (write
    position inside the path, allocated buffer as long as the path) are
    kept. *)
Theorem lazybuf_append_content (b : LazyBuf.lazybuf) (c : ascii) :
  LazyBuf.wf b ->
  LazyBuf.w b < len (LazyBuf.path b) ->
  exists b',
    LazyBuf.append b c = Some b' /\ LazyBuf.wf b' /\
    LazyBuf.content b' = LazyBuf.content b ++ [c] /\
    LazyBuf.w b' = LazyBuf.w b + 1 /\
    LazyBuf.path b' = LazyBuf.path b /\
    LazyBuf.volAndPath b' = LazyBuf.volAndPath b /\
    LazyBuf.volLen b' = LazyBuf.volLen b.
Proof.
  intros Hwf Hlt.
  destruct (append_ok b c Hwf Hlt)
    as (b' & Ha & Hwf' & Hc & Hw & Hp & Hvp & Hvl & _).
  exists b'. repeat (split; [assumption|]). assumption.
Qed.

Lemma lazybuf_append_content_witness :
  exists b',
    LazyBuf.append sampleBuf "x"%char = Some b' /\ LazyBuf.wf b' /\
    LazyBuf.content b' = LazyBuf.content sampleBuf ++ ["x"%char] /\
    LazyBuf.w b' = LazyBuf.w sampleBuf + 1 /\
    LazyBuf.path b' = LazyBuf.path sampleBuf /\
    LazyBuf.volAndPath b' = LazyBuf.volAndPath sampleBuf /\
    LazyBuf.volLen b' = LazyBuf.volLen sampleBuf.
Proof.
  apply (lazybuf_append_content sampleBuf "x"%char).
  - unfold LazyBuf.wf. simpl. split; [vm_compute; split; discriminate|exact I].
  - vm_compute. reflexivity.
Defined.

Lemma content_length (b : LazyBuf.lazybuf) :
  LazyBuf.wf b -> len (LazyBuf.content b) = LazyBuf.w b.
Proof.
  destruct b as [p bf w vp vl]. unfold LazyBuf.wf, LazyBuf.content.
  cbn [LazyBuf.path LazyBuf.buf LazyBuf.w]. intros [Hw Hbf].
  destruct bf as [bf|]; unfold len in *; rewrite length_firstn; lia.
Qed.

Lemma index_content (b : LazyBuf.lazybuf) (i : Z) :
  0 <= i < LazyBuf.w b ->
  LazyBuf.index b i = nth_error (LazyBuf.content b) (Z.to_nat i).
Proof.
  destruct b as [p bf w vp vl]. unfold LazyBuf.index, LazyBuf.content.
  cbn [LazyBuf.path LazyBuf.buf LazyBuf.w]. intros Hi.
  unfold LazyBuf.byteAt, index.
  replace (i <? 0) with false by (symmetry; apply Z.ltb_ge; lia).
  destruct bf as [bf|]; rewrite nth_error_firstn;
    replace (Z.to_nat i <? Z.to_nat w)%nat with true
      by (symmetry; apply Nat.ltb_lt; lia);
    reflexivity.
Qed.

(** X12.  What is appended can be read back: after [append(c)] inside the
    capacity, [index] at the old write position returns [c], and [index]
    at every earlier position returns what it returned before. *)
Theorem lazybuf_index_after_append
  (b b' : LazyBuf.lazybuf) (c : ascii) :
  LazyBuf.wf b ->
  LazyBuf.w b < len (LazyBuf.path b) ->
  LazyBuf.append b c = Some b' ->
  LazyBuf.index b' (LazyBuf.w b) = Some c /\
  forall i, 0 <= i < LazyBuf.w b -> LazyBuf.index b' i = LazyBuf.index b i.
Proof.
  intros Hwf Hlt Happ.
  destruct (append_ok b c Hwf Hlt)
    as (b'' & Ha & Hwf' & Hc & Hw & _).
  rewrite Happ in Ha. inversion Ha; subst b''. clear Ha.
  pose proof (content_length b Hwf) as Hcl.
  destruct Hwf as [Hwr _].
  split.
  - rewrite index_content by lia. rewrite Hc.
    rewrite nth_error_app2 by (unfold len in Hcl; lia).
    replace (Z.to_nat (LazyBuf.w b) - List.length (LazyBuf.content b))%nat
      with 0%nat by (unfold len in Hcl; lia).
    reflexivity.
  - intros i Hi. rewrite !index_content by lia. rewrite Hc.
    apply nth_error_app1. unfold len in Hcl. lia.
Qed.

Lemma lazybuf_index_after_append_witness :
  LazyBuf.index
    (LazyBuf.mkLazybuf (str "/a/b")
       (Some ["/"%char; "a"%char; "x"%char; Ascii.zero]) 3 (str "C:/a/b") 2)
    2 = Some "x"%char.
Proof.
  assert (Hwf : LazyBuf.wf sampleBuf).
  { unfold LazyBuf.wf. simpl. split; [vm_compute; split; discriminate|exact I]. }
  assert (Hlt : LazyBuf.w sampleBuf < len (LazyBuf.path sampleBuf))
    by (vm_compute; reflexivity).
  exact (proj1 (lazybuf_index_after_append sampleBuf _ "x"%char
                  Hwf Hlt eq_refl)).
Defined.

(** X13.  When the buffer was set up over a path that follows a volume
    name ([volAndPath] is the volume followed by [path], [volLen] the
    length of the volume), [string] does not panic and returns the volume
    followed by exactly the bytes appended, allocated buffer or not. *)
Theorem lazybuf_string (b : LazyBuf.lazybuf) (vol : gostring) :
  LazyBuf.wf b ->
  LazyBuf.volAndPath b = vol ++ LazyBuf.path b ->
  LazyBuf.volLen b = len vol ->
  LazyBuf.string b = Some (vol ++ LazyBuf.content b).
Proof.
  destruct b as [p bf w vp vl]. unfold LazyBuf.wf, LazyBuf.string,
    LazyBuf.content.
  cbn [LazyBuf.path LazyBuf.buf LazyBuf.w LazyBuf.volAndPath LazyBuf.volLen].
  intros [Hw Hbf] -> ->. pose proof (len_nonneg vol) as Hv.
  destruct bf as [bf|].
  - rewrite sliceTo_app. cbn [bind].
    rewrite sliceTo_firstn by lia. reflexivity.
  - rewrite sliceTo_firstn by (rewrite len_app; lia). f_equal.
    replace (Z.to_nat (len vol + w))
      with (List.length vol + Z.to_nat w)%nat by (unfold len; lia).
    rewrite firstn_app_2. reflexivity.
Qed.

Lemma lazybuf_string_witness :
  LazyBuf.string sampleBuf = Some (str "C:/a").
Proof.
  assert (Hwf : LazyBuf.wf sampleBuf).
  { unfold LazyBuf.wf. simpl. split; [vm_compute; split; discriminate|exact I]. }
  exact (lazybuf_string sampleBuf (str "C:") Hwf eq_refl eq_refl).
Defined.

(** X14.  The buffer is lazy as its comment says: after [append(c)] inside
    the capacity no buffer is allocated exactly when none was allocated
    before and [c] is the byte of the path at the write position. *)
Theorem lazybuf_append_lazy (b b' : LazyBuf.lazybuf) (c : ascii) :
  LazyBuf.wf b ->
  LazyBuf.w b < len (LazyBuf.path b) ->
  LazyBuf.append b c = Some b' ->
  (LazyBuf.buf b' = None <->
   LazyBuf.buf b = None
   /\ LazyBuf.byteAt (LazyBuf.path b) (LazyBuf.w b) = Some c).
Proof.
  intros Hwf Hlt Happ.
  destruct (append_ok b c Hwf Hlt) as (b'' & Ha & _ & _ & _ & _ & _ & _ & Hl).
  rewrite Happ in Ha. inversion Ha; subst b''. exact Hl.
Qed.

Lemma lazybuf_append_lazy_witness :
  LazyBuf.buf (LazyBuf.mkLazybuf (str "/a/b") None 3 (str "C:/a/b") 2) = None.
Proof.
  assert (Hwf : LazyBuf.wf sampleBuf).
  { unfold LazyBuf.wf. simpl. split; [vm_compute; split; discriminate|exact I]. }
  assert (Hlt : LazyBuf.w sampleBuf < len (LazyBuf.path sampleBuf))
    by (vm_compute; reflexivity).
  apply (proj2 (lazybuf_append_lazy sampleBuf _ "/"%char Hwf Hlt eq_refl)).
  split; reflexivity.
Defined.

(** X15.  The buffer holds no more bytes than its path: with the write
    position at the end of the path, [append] panics, whether a buffer was
    allocated or not. *)
Theorem lazybuf_append_full (b : LazyBuf.lazybuf) (c : ascii) :
  LazyBuf.wf b ->
  LazyBuf.w b = len (LazyBuf.path b) ->
  LazyBuf.append b c = None.
Proof.
  destruct b as [p bf w vp vl]. unfold LazyBuf.wf, LazyBuf.append.
  cbn [LazyBuf.path LazyBuf.buf LazyBuf.w LazyBuf.volAndPath LazyBuf.volLen].
  intros [Hw Hbf] ->. destruct bf as [bf|].
  - rewrite store_out_of_range by lia. reflexivity.
  - rewrite Z.ltb_irrefl. cbn [bind].
    rewrite sliceTo_firstn by lia. cbn [bind].
    destruct (copy_head (len p) (firstn (Z.to_nat (len p)) p)) as [Hcl _].
    { unfold len. rewrite length_firstn. lia. }
    rewrite store_out_of_range by lia. reflexivity.
Qed.

Lemma lazybuf_append_full_witness :
  LazyBuf.append (LazyBuf.mkLazybuf (str "/a") None 2 (str "/a") 0) "b"%char
    = None.
Proof.
  apply lazybuf_append_full.
  - unfold LazyBuf.wf. simpl. split; [vm_compute; split; discriminate|exact I].
  - reflexivity.
Defined.

(* ================================================================== *)
(** * Pattern helpers *)

Lemma index_nth_error (s : gostring) (i : Z) (c : ascii) :
  0 <= i -> index s i = Some c -> nth_error s (Z.to_nat i) = Some c.
Proof.
  intros Hi. unfold index.
  replace (i <? 0) with false by (symmetry; apply Z.ltb_ge; lia). auto.
Qed.

Lemma index_In (s : gostring) (i : Z) (c : ascii) :
  index s i = Some c -> In c s.
Proof.
  unfold index. destruct (i <? 0); [discriminate|]. apply nth_error_In.
Qed.

Lemma skipn_nth_cons (l : gostring) (n : nat) (x : ascii) :
  nth_error l n = Some x -> skipn n l = x :: skipn (S n) l.
Proof.
  revert n. induction l as [|y l IH]; intros [|n] Hn; simpl in *;
    try discriminate.
  - inversion Hn. reflexivity.
  - apply IH. exact Hn.
Qed.

(** Where the loop [Scan] stops: at the end of the pattern or on a star,
    and past its starting point unless it starts on a star. *)
Lemma scanLoop_result (ost : OSType) (pattern : gostring) :
  forall (fuel : nat) (i : Z) (inrange : bool),
    0 <= i <= len pattern ->
    (Z.to_nat (len pattern - i) < fuel)%nat ->
    exists j,
      scanLoop ost pattern i inrange fuel = Returned j /\
      i <= j <= len pattern /\
      (j = len pattern \/ index pattern j = Some "*"%char) /\
      (i < len pattern -> index pattern i <> Some "*"%char -> i < j).
Proof.
  induction fuel as [|fuel IH]; intros i inrange Hi Hf; [lia|].
  cbn [scanLoop].
  destruct (i <? len pattern) eqn:El.
  2:{ apply Z.ltb_ge in El. exists i. split; [reflexivity|].
      split; [lia|]. split; [left; lia|]. lia. }
  apply Z.ltb_lt in El.
  destruct (index_in_range pattern i) as (c & Hc); [lia|]. rewrite Hc.
  assert (Hstep : forall i' r,
            i <= i' < len pattern ->
            exists j,
              scanLoop ost pattern (i' + 1) r fuel = Returned j /\
              i <= j <= len pattern /\
              (j = len pattern \/ index pattern j = Some "*"%char) /\
              i < j).
  { intros i' r Hi'.
    destruct (IH (i' + 1) r) as (j & Hj & Hr & He & _); [lia|lia|].
    exists j. split; [exact Hj|]. split; [lia|]. split; [exact He|lia]. }
  destruct (Ascii.eqb c "\"%char) eqn:E1.
  { destruct (Hstep
                (if negb (OSType_eqb ost OsWindows)
                 then if i + 1 <? len pattern then i + 1 else i else i)
                inrange) as (j & Hj & Hr & He & Hlt).
    - destruct (negb (OSType_eqb ost OsWindows)); [|lia].
      destruct (i + 1 <? len pattern) eqn:E; [apply Z.ltb_lt in E|]; lia.
    - exists j. repeat (split; [assumption|]). intros _ _. exact Hlt. }
  destruct (Ascii.eqb c "["%char) eqn:E2.
  { destruct (Hstep i true) as (j & Hj & Hr & He & Hlt); [lia|].
    exists j. repeat (split; [assumption|]). intros _ _. exact Hlt. }
  destruct (Ascii.eqb c "]"%char) eqn:E3.
  { destruct (Hstep i false) as (j & Hj & Hr & He & Hlt); [lia|].
    exists j. repeat (split; [assumption|]). intros _ _. exact Hlt. }
  destruct (Ascii.eqb c "*"%char) eqn:E4.
  { apply Ascii.eqb_eq in E4. subst c. destruct inrange; cbn [negb].
    - destruct (Hstep i true) as (j & Hj & Hr & He & Hlt); [lia|].
      exists j. repeat (split; [assumption|]). intros _ _. exact Hlt.
    - exists i. split; [reflexivity|]. split; [lia|].
      split; [right; exact Hc|]. intros _ Hn. congruence. }
  destruct (Hstep i inrange) as (j & Hj & Hr & He & Hlt); [lia|].
  exists j. repeat (split; [assumption|]). intros _ _. exact Hlt.
Qed.

Lemma stripStars_result (pattern : gostring) (star : bool) :
  exists k,
    stripStars pattern star
      = (skipn k pattern, star || negb (Nat.eqb k 0)) /\
    pattern = repeat "*"%char k ++ skipn k pattern /\
    hd_error (skipn k pattern) <> Some "*"%char.
Proof.
  revert star. induction pattern as [|c r IH]; intros star.
  - exists 0%nat. simpl. rewrite orb_false_r.
    split; [reflexivity|]. split; [reflexivity|discriminate].
  - cbn [stripStars]. destruct (Ascii.eqb c "*"%char) eqn:E.
    + apply Ascii.eqb_eq in E. subst c.
      destruct (IH true) as (k & Hs & Hp & Hh). exists (S k).
      cbn [skipn repeat app Nat.eqb negb]. rewrite Hs, orb_true_r.
      split; [reflexivity|]. split; [now rewrite <- Hp|exact Hh].
    + exists 0%nat. simpl. rewrite orb_false_r.
      split; [reflexivity|]. split; [reflexivity|].
      intros Heq. inversion Heq; subst. now rewrite Ascii.eqb_refl in E.
Qed.

(** What [scanChunk] returns on a pattern already free of leading stars. *)
Lemma scanChunk_body (ost : OSType) (p : gostring) :
  hd_error p <> Some "*"%char ->
  exists chunk rest,
    scanLoop ost p 0 false (S (List.length p))
      = Returned (len chunk) /\
    slice p 0 (len chunk) = Some chunk /\
    sliceFrom p (len chunk) = Some rest /\
    p = chunk ++ rest /\
    (rest = [] \/ exists r, rest = "*"%char :: r) /\
    (chunk = [] -> rest = []).
Proof.
  intros Hhd. pose proof (len_nonneg p) as Hp.
  destruct (scanLoop_result ost p (S (List.length p)) 0 false)
    as (j & Hj & Hr & He & Hlt); [lia|unfold len; lia|].
  exists (firstn (Z.to_nat j) p), (skipn (Z.to_nat j) p).
  assert (Hlen : len (firstn (Z.to_nat j) p) = j).
  { unfold len in *. rewrite length_firstn. lia. }
  rewrite Hlen. split; [exact Hj|].
  split; [apply (sliceTo_firstn p j); lia|].
  split; [apply sliceFrom_skipn; lia|].
  split; [symmetry; apply firstn_skipn|]. split.
  - destruct He as [-> | Hstar].
    + left. apply skipn_all2. unfold len. lia.
    + right. exists (skipn (S (Z.to_nat j)) p).
      apply skipn_nth_cons. apply index_nth_error; [lia|exact Hstar].
  - intros Hnil.
    assert (Hj0 : j = 0).
    { rewrite <- Hlen, Hnil. reflexivity. }
    subst j. destruct p as [|x p']; [reflexivity|].
    exfalso. rewrite len_cons in *. pose proof (len_nonneg p').
    assert (0 < 0); [|lia]. apply Hlt; [lia|].
    rewrite index_0. intros Heq. apply Hhd. inversion Heq. reflexivity.
Qed.

(** X16.  [scanChunk] never panics and cuts every pattern in three: the
    leading stars, the chunk and the rest, which put together give the
    pattern back.  [star] tells whether there was a leading star, the
    chunk does not begin with a star, the rest is empty or begins with a
    star, and the chunk is empty only when the rest is empty too. *)
Theorem scanChunk_partition (ost : OSType) (pattern : gostring) :
  exists k chunk rest,
    scanChunk ost pattern = Returned (negb (Nat.eqb k 0), chunk, rest) /\
    pattern = repeat "*"%char k ++ chunk ++ rest /\
    hd_error chunk <> Some "*"%char /\
    (rest = [] \/ exists r, rest = "*"%char :: r) /\
    (chunk = [] -> rest = []).
Proof.
  destruct (stripStars_result pattern false) as (k & Hs & Hp & Hh).
  destruct (scanChunk_body ost (skipn k pattern) Hh)
    as (chunk & rest & Hl & Hc & Hr & Hcr & Hrest & Hnil).
  exists k, chunk, rest. unfold scanChunk. rewrite Hs. cbn [orb].
  rewrite Hl, Hc, Hr. split; [reflexivity|].
  split; [rewrite <- Hcr; exact Hp|].
  split; [|split; assumption].
  destruct chunk as [|x ch]; [discriminate|].
  rewrite Hcr in Hh. exact Hh.
Qed.

Lemma hasMeta_star (ost : OSType) (p : gostring) :
  hasMeta ost p = false -> ~ In "*"%char p.
Proof.
  intros Hm Hin.
  assert (Ht : hasMeta ost p = true); [|congruence].
  unfold hasMeta, ContainsAny. apply existsb_exists.
  exists "*"%char. split; [exact Hin|]. destruct ost; reflexivity.
Qed.

(** X17.  A pattern in which [hasMeta] finds no magic character is one
    chunk: [scanChunk] returns it whole, with no star and an empty rest. *)
Theorem scanChunk_no_meta (ost : OSType) (pattern : gostring) :
  hasMeta ost pattern = false ->
  scanChunk ost pattern = Returned (false, pattern, []).
Proof.
  intros Hm. pose proof (hasMeta_star ost pattern Hm) as Hstar.
  assert (Hs : stripStars pattern false = (pattern, false)).
  { destruct pattern as [|c r]; [reflexivity|]. cbn [stripStars].
    destruct (Ascii.eqb c "*"%char) eqn:E; [|reflexivity].
    apply Ascii.eqb_eq in E. subst c. exfalso. apply Hstar. now left. }
  unfold scanChunk. rewrite Hs.
  pose proof (len_nonneg pattern) as Hp.
  destruct (scanLoop_result ost pattern (S (List.length pattern)) 0 false)
    as (j & Hj & Hr & He & _); [lia|unfold len; lia|].
  assert (Hjl : j = len pattern).
  { destruct He as [-> | He]; [reflexivity|].
    exfalso. apply Hstar. eapply index_In. exact He. }
  subst j. rewrite Hj.
  change (slice pattern 0 (len pattern)) with (sliceFrom pattern 0).
  rewrite sliceFrom_skipn by lia. rewrite sliceFrom_skipn by lia.
  simpl skipn. rewrite skipn_all2 by (unfold len; lia). reflexivity.
Qed.

Lemma scanChunk_no_meta_witness :
  scanChunk OsLinux (str "file].txt") = Returned (false, str "file].txt", []).
Proof.
  exact (scanChunk_no_meta OsLinux (str "file].txt") eq_refl).
Defined.

Lemma LastIndexByte_result (s : gostring) (c : ascii) :
  (LastIndexByte s c = -1 /\ ~ In c s)
  \/ exists a b, s = a ++ c :: b /\ ~ In c b /\ LastIndexByte s c = len a.
Proof.
  induction s as [|x r IH].
  - left. split; [reflexivity|intros []].
  - cbn [LastIndexByte].
    destruct IH as [[Hp Hn] | (a & b & -> & Hb & Hp)].
    + rewrite Hp. cbn [Z.eqb]. destruct (Ascii.eqb x c) eqn:E.
      * apply Ascii.eqb_eq in E. subst x. right. exists [], r.
        repeat split; auto.
      * apply Ascii.eqb_neq in E. left. split; [reflexivity|].
        simpl. intros [Hx | Hin]; auto.
    + rewrite Hp. pose proof (len_nonneg a) as Ha.
      replace (len a =? -1) with false by (symmetry; apply Z.eqb_neq; lia).
      right. exists (x :: a), b. split; [reflexivity|].
      split; [exact Hb|]. rewrite len_cons. lia.
Qed.

(** X18.  A pattern that contains a byte accepted by [IsPathSeparator] is
    refused: [prefixAndSuffix] returns two empty strings and
    [ErrPatternHasSeparator], even when the pattern also contains a
    star. *)
Theorem prefixAndSuffix_separator
  (isSep : ascii -> bool) (pattern : gostring) (c : ascii) :
  In c pattern -> isSep c = true ->
  prefixAndSuffix isSep pattern = Some ([], [], Some ErrPatternHasSeparator).
Proof.
  intros Hin Hc. unfold prefixAndSuffix.
  replace (existsb isSep pattern) with true; [reflexivity|].
  symmetry. apply existsb_exists. now exists c.
Qed.

Lemma prefixAndSuffix_separator_witness :
  prefixAndSuffix isSlash (str "tmp/*.txt")
    = Some ([], [], Some ErrPatternHasSeparator).
Proof.
  apply (prefixAndSuffix_separator isSlash (str "tmp/*.txt") "/"%char).
  - simpl. tauto.
  - reflexivity.
Defined.

(** X19.  On a pattern free of separators [prefixAndSuffix] does not panic
    and returns no error.  Without a star the prefix is the whole pattern
    and the suffix is empty; otherwise the pattern is the prefix, a star
    and the suffix, cut at the last star: the suffix contains no star. *)
Theorem prefixAndSuffix_split (isSep : ascii -> bool) (pattern : gostring) :
  (forall c, In c pattern -> isSep c = false) ->
  exists prefix suffix,
    prefixAndSuffix isSep pattern = Some (prefix, suffix, None) /\
    ~ In "*"%char suffix /\
    ((~ In "*"%char pattern /\ prefix = pattern /\ suffix = [])
     \/ pattern = prefix ++ "*"%char :: suffix).
Proof.
  intros Hsep. unfold prefixAndSuffix.
  replace (existsb isSep pattern) with false.
  2:{ symmetry. apply not_true_is_false. intros He.
      apply existsb_exists in He. destruct He as (c & Hin & Hc).
      rewrite (Hsep c Hin) in Hc. discriminate. }
  destruct (LastIndexByte_result pattern "*"%char)
    as [[Hp Hn] | (a & b & -> & Hb & Hp)].
  - rewrite Hp. cbn [Z.eqb negb]. exists pattern, [].
    split; [reflexivity|]. split; [intros []|]. left. auto.
  - rewrite Hp. pose proof (len_nonneg a) as Ha.
    replace (len a =? -1) with false by (symmetry; apply Z.eqb_neq; lia).
    cbn [negb]. rewrite sliceTo_app. cbn [bind].
    replace (a ++ "*"%char :: b) with ((a ++ ["*"%char]) ++ b)
      by (rewrite <- app_assoc; reflexivity).
    rewrite <- (len_snoc a "*"%char), sliceFrom_app. cbn [bind].
    exists a, b. split; [reflexivity|]. split; [exact Hb|].
    right. rewrite <- app_assoc. reflexivity.
Qed.

Lemma prefixAndSuffix_split_witness :
  exists prefix suffix,
    prefixAndSuffix isSlash (str "a*b*.txt") = Some (prefix, suffix, None) /\
    ~ In "*"%char suffix /\
    ((~ In "*"%char (str "a*b*.txt") /\ prefix = str "a*b*.txt"
      /\ suffix = [])
     \/ str "a*b*.txt" = prefix ++ "*"%char :: suffix).
Proof.
  apply (prefixAndSuffix_split isSlash (str "a*b*.txt")).
  intros c Hc. simpl in Hc.
  repeat (destruct Hc as [<- | Hc]; [reflexivity|]). contradiction.
Defined.

(* ================================================================== *)
(** * Random names *)

Lemma digit_facts (d : Z) :
  0 <= d <= 9 -> isDigit (digit d) = true /\ digitValue (digit d) = d.
Proof.
  intros Hd.
  assert (H : d = 0 \/ d = 1 \/ d = 2 \/ d = 3 \/ d = 4 \/ d = 5 \/ d = 6
              \/ d = 7 \/ d = 8 \/ d = 9) by lia.
  repeat (destruct H as [-> | H]; [split; reflexivity|]).
  subst d. split; reflexivity.
Qed.

Lemma decimalValue_snoc (s : gostring) (c : ascii) :
  decimalValue (s ++ [c]) = decimalValue s * 10 + digitValue c.
Proof. unfold decimalValue. rewrite fold_left_app. reflexivity. Qed.

(** With enough fuel, [digits] writes [n] with as many digits as it has,
    all of them decimal digits, and the string stands for [n]. *)
Lemma digits_spec (k : nat) :
  forall (fuel : nat) (n : Z),
    (k < fuel)%nat ->
    0 <= n < 10 ^ Z.of_nat (S k) ->
    (k = 0%nat \/ 10 ^ Z.of_nat k <= n) ->
    List.length (digits fuel n) = S k /\
    forallb isDigit (digits fuel n) = true /\
    decimalValue (digits fuel n) = n.
Proof.
  induction k as [|k IH]; intros fuel n Hf Hn Hlow;
    (destruct fuel as [|fuel]; [lia|]); cbn [digits].
  - change (10 ^ Z.of_nat 1) with 10 in Hn.
    replace (n <? 10) with true by (symmetry; apply Z.ltb_lt; lia).
    destruct (digit_facts n) as [Hd Hv]; [lia|].
    split; [reflexivity|]. split; [cbn [forallb]; now rewrite Hd|].
    unfold decimalValue. cbn [fold_left]. rewrite Hv. lia.
  - destruct Hlow as [Hk | Hlow]; [discriminate|].
    assert (Hp : 10 ^ Z.of_nat (S k) = 10 * 10 ^ Z.of_nat k).
    { rewrite Nat2Z.inj_succ, Z.pow_succ_r by lia. reflexivity. }
    assert (Hp2 : 10 ^ Z.of_nat (S (S k)) = 10 * 10 ^ Z.of_nat (S k)).
    { rewrite (Nat2Z.inj_succ (S k)), Z.pow_succ_r by lia. reflexivity. }
    assert (Hpos : 0 < 10 ^ Z.of_nat k) by (apply Z.pow_pos_nonneg; lia).
    replace (n <? 10) with false by (symmetry; apply Z.ltb_ge; lia).
    assert (Hdiv : 10 ^ Z.of_nat k <= n / 10 < 10 ^ Z.of_nat (S k)).
    { split.
      - apply Z.div_le_lower_bound; lia.
      - apply Z.div_lt_upper_bound; lia. }
    destruct (IH fuel (n / 10)) as (Hl & Hd & Hv); [lia|lia| |].
    { destruct k; [now left|right; lia]. }
    pose proof (Z.mod_pos_bound n 10 ltac:(lia)) as Hm.
    destruct (digit_facts (n mod 10)) as [Hd1 Hv1]; [lia|].
    split; [rewrite length_app, Hl; cbn [List.length]; lia|]. split.
    + rewrite forallb_app, Hd. cbn [forallb andb]. now rewrite Hd1.
    + rewrite decimalValue_snoc, Hv, Hv1.
      pose proof (Z.div_mod n 10 ltac:(lia)). lia.
Qed.

Lemma decimalValue_cons (c : ascii) (s : gostring) :
  decimalValue (c :: s)
    = digitValue c * 10 ^ len s + decimalValue s.
Proof.
  unfold decimalValue. cbn [fold_left]. rewrite Z.mul_0_l, Z.add_0_l.
  generalize (digitValue c) as acc. induction s as [|x s IH]; intros acc.
  - cbn [fold_left]. rewrite len_nil. change (10 ^ 0) with 1. lia.
  - cbn [fold_left]. rewrite IH, (IH (0 * 10 + digitValue x)), len_cons.
    pose proof (len_nonneg s) as Hs.
    replace (1 + len s) with (Z.succ (len s)) by lia.
    rewrite Z.pow_succ_r by lia. ring.
Qed.

Lemma digits_value_bound (s : gostring) :
  forallb isDigit s = true -> 0 <= decimalValue s < 10 ^ len s.
Proof.
  induction s as [|c s IH] using rev_ind; intros Hd.
  - unfold decimalValue. cbn [fold_left]. rewrite len_nil.
    change (10 ^ 0) with 1. lia.
  - rewrite forallb_app in Hd. apply andb_true_iff in Hd.
    destruct Hd as [Hs Hc]. cbn [forallb] in Hc. rewrite andb_true_r in Hc.
    specialize (IH Hs). rewrite decimalValue_snoc, len_snoc.
    pose proof (len_nonneg s) as Hl.
    replace (len s + 1) with (Z.succ (len s)) by lia.
    rewrite Z.pow_succ_r by lia.
    unfold isDigit in Hc. apply andb_true_iff in Hc.
    rewrite !Z.leb_le in Hc. unfold digitValue.
    change (byte "0") with 48 in Hc. change (byte "9") with 57 in Hc. lia.
Qed.

(** X20.  [nextRandom] never panics and always returns a string of exactly
    nine decimal digits: the new value of [randno], reduced modulo
    [10^9] and written with leading zeros.  The new [randno] is a
    [uint32]. *)
Theorem nextRandom_nine_digits (now pid randno : Z) :
  exists s r,
    nextRandom now pid randno = Some (s, r) /\
    0 <= r < 2 ^ 32 /\
    len s = 9 /\
    forallb isDigit s = true /\
    decimalValue s = r mod 1000000000.
Proof.
  unfold nextRandom.
  set (r := uint32 ((if randno =? 0 then reseed now pid else randno)
                    * 1664525 + 1013904223)).
  assert (Hr : 0 <= r < 2 ^ 32).
  { unfold r, uint32. apply Z.mod_pos_bound. reflexivity. }
  pose proof (Z.mod_pos_bound r 1000000000 ltac:(lia)) as Hm.
  set (m := r mod 1000000000) in *.
  assert (Hu : uint32 (1000000000 + m) = 1000000000 + m).
  { unfold uint32. apply Z.mod_small.
    change (2 ^ 32) with 4294967296. lia. }
  rewrite Hu. set (n := 1000000000 + m).
  assert (Hn : 1000000000 <= n < 2000000000) by (unfold n; lia).
  assert (Hlog : 29 <= Z.log2 n).
  { change 29 with (Z.log2 1000000000). apply Z.log2_le_mono. lia. }
  unfold Itoa. replace (n <? 0) with false
    by (symmetry; apply Z.ltb_ge; lia).
  destruct (digits_spec 9 (S (Z.to_nat (Z.log2 n))) n) as (Hl & Hd & Hv).
  { lia. }
  { change (10 ^ Z.of_nat 10) with 10000000000. lia. }
  { right. change (10 ^ Z.of_nat 9) with 1000000000. lia. }
  set (ds := digits (S (Z.to_nat (Z.log2 n))) n) in *.
  destruct ds as [|c0 rest] eqn:Eds; [discriminate Hl|].
  assert (Hrest : List.length rest = 9%nat)
    by (cbn [List.length] in Hl; lia).
  assert (Hfrom : sliceFrom (c0 :: rest) 1 = Some rest).
  { rewrite sliceFrom_skipn; [reflexivity|].
    rewrite len_cons. pose proof (len_nonneg rest). lia. }
  rewrite Hfrom. cbn [bind]. exists rest, r.
  split; [reflexivity|]. split; [exact Hr|].
  assert (Hlr : len rest = 9) by (unfold len; lia).
  split; [exact Hlr|].
  cbn [forallb] in Hd. apply andb_true_iff in Hd. destruct Hd as [Hc0 Hdr].
  split; [exact Hdr|].
  rewrite decimalValue_cons, Hlr in Hv.
  pose proof (digits_value_bound rest Hdr) as Hb. rewrite Hlr in Hb.
  change (10 ^ 9) with 1000000000 in *.
  unfold isDigit in Hc0. apply andb_true_iff in Hc0.
  rewrite !Z.leb_le in Hc0.
  change (byte "0") with 48 in Hc0. change (byte "9") with 57 in Hc0.
  unfold digitValue in Hv. fold m. unfold n in *. lia.
Qed.

(* ================================================================== *)
(** * Features *)

Lemma land_eq_bits (f x : Z) :
  Z.land f x = x <->
  (forall i, 0 <= i -> Z.testbit x i = true -> Z.testbit f i = true).
Proof.
  split.
  - intros Heq i Hi Hx. rewrite <- Heq, Z.land_spec in Hx.
    apply andb_true_iff in Hx. tauto.
  - intros Hb. apply Z.bits_inj'. intros i Hi. rewrite Z.land_spec.
    destruct (Z.testbit x i) eqn:Ex.
    + rewrite (Hb i Hi Ex). reflexivity.
    + apply andb_false_r.
Qed.

Lemma has_lor (f a b : Z) :
  (Z.land f (Z.lor a b) =? Z.lor a b)
    = (Z.land f a =? a) && (Z.land f b =? b).
Proof.
  apply eq_true_iff_eq.
  rewrite andb_true_iff, !Z.eqb_eq, !land_eq_bits. split.
  - intros Hab. split; intros i Hi Hx; apply (Hab i Hi);
      rewrite Z.lor_spec, Hx; [reflexivity|apply orb_true_r].
  - intros [Ha Hb] i Hi Hx. rewrite Z.lor_spec in Hx.
    apply orb_true_iff in Hx. destruct Hx; auto.
Qed.

Lemma has_after_lor (f g x : Z) :
  (Z.land f x =? x) = true -> (Z.land (Z.lor f g) x =? x) = true.
Proof.
  rewrite !Z.eqb_eq, !land_eq_bits. intros Hf i Hi Hx.
  rewrite Z.lor_spec, (Hf i Hi Hx). reflexivity.
Qed.

Lemma has_self_lor (f g : Z) : (Z.land (Z.lor f g) g =? g) = true.
Proof.
  rewrite Z.eqb_eq, land_eq_bits. intros i Hi Hx.
  rewrite Z.lor_spec, Hx. apply orb_true_r.
Qed.

Section MemFSFacts.

Context {I U : Type} {M : memfs.IdentityMgr I U}.

(** X21.  [HasFeature] asks for all the bits of its argument: a file
    system has the union of two feature sets exactly when it has both, and
    it has the empty feature set whatever its features are. *)
Theorem HasFeature_union (vfs : memfs.MemFS I U) (a b : Z) :
  memfs.HasFeature vfs (Z.lor a b)
    = memfs.HasFeature vfs a && memfs.HasFeature vfs b
  /\ memfs.HasFeature vfs 0 = true.
Proof.
  unfold memfs.HasFeature. split; [apply has_lor|].
  rewrite Z.land_0_r. reflexivity.
Qed.

(** X22.  The options only add features.  After [WithIdm] the file system
    has the features of the identity manager, its administrator as user
    and the manager itself; after [WithMainDirs] it has [FeatMainDirs];
    every feature set it had before either option, or before [WithName],
    it still has, and the two feature options give the same features in
    either order. *)
Theorem memfs_options_add_features
  (vfs : memfs.MemFS I U) (i : I) (mainDirs : Z) (n : gostring) (x : Z) :
  memfs.HasFeature (memfs.WithIdm i vfs) (memfs.idmFeatures i) = true /\
  memfs.user (memfs.WithIdm i vfs) = memfs.AdminUser i /\
  memfs.idm (memfs.attrs (memfs.WithIdm i vfs)) = i /\
  memfs.HasFeature (memfs.WithMainDirs mainDirs vfs) mainDirs = true /\
  (memfs.HasFeature vfs x = true ->
   memfs.HasFeature (memfs.WithIdm i vfs) x = true /\
   memfs.HasFeature (memfs.WithMainDirs mainDirs vfs) x = true /\
   memfs.HasFeature (memfs.WithName n vfs) x = true) /\
  memfs.Features (memfs.WithIdm i (memfs.WithMainDirs mainDirs vfs))
    = memfs.Features (memfs.WithMainDirs mainDirs (memfs.WithIdm i vfs)).
Proof.
  unfold memfs.HasFeature, memfs.Features, memfs.WithIdm,
    memfs.WithMainDirs, memfs.WithName.
  cbn [memfs.attrs memfs.features memfs.user memfs.idm memfs.name].
  split; [apply has_self_lor|]. split; [reflexivity|].
  split; [reflexivity|]. split; [apply has_self_lor|]. split.
  - intros Hx. split; [now apply has_after_lor|].
    split; [now apply has_after_lor|exact Hx].
  - rewrite <- !Z.lor_assoc. f_equal. apply Z.lor_comm.
Qed.

End MemFSFacts.

Lemma memfs_options_add_features_witness :
  memfs.HasFeature (memfs.WithIdm (mkNamedIdm (str "root")) sampleMemFS)
    (Z.lor FeatChroot FeatSymlink) = true /\
  memfs.HasFeature (memfs.WithMainDirs 512 sampleMemFS)
    (Z.lor FeatChroot FeatSymlink) = true /\
  memfs.HasFeature (memfs.WithName (str "mem") sampleMemFS)
    (Z.lor FeatChroot FeatSymlink) = true.
Proof.
  apply (proj1 (proj2 (proj2 (proj2 (proj2
           (memfs_options_add_features sampleMemFS
              (mkNamedIdm (str "root")) 512 (str "mem")
              (Z.lor FeatChroot FeatSymlink))))))).
  reflexivity.
Defined.

(* ================================================================== *)
(** * Error kinds that cannot be told apart *)

(** X23.  Comparing two errors of one table tells their kinds apart,
    except for the kinds the table maps to one value: under a personality
    other than Windows only [NoSuchDir] and [NoSuchFile] coincide; under
    the Windows personality [NoSuchDir] and [NoSuchFile] differ, but
    [BadFileDesc] coincides with [PermDenied] and [NoSuchDir] with
    [NotADirectory]. *)
Theorem SetOSType_coinciding_slots
  (ve : Errors) (ost : OSType) (k1 k2 : ErrorSlot) :
  k1 <> k2 ->
  (ost <> OsWindows ->
   (slot k1 (SetOSType ve ost) = slot k2 (SetOSType ve ost) <->
    (k1 = SlotNoSuchDir /\ k2 = SlotNoSuchFile)
    \/ (k1 = SlotNoSuchFile /\ k2 = SlotNoSuchDir))) /\
  (ost = OsWindows ->
   (slot k1 (SetOSType ve ost) = slot k2 (SetOSType ve ost) <->
    (k1 = SlotBadFileDesc /\ k2 = SlotPermDenied)
    \/ (k1 = SlotPermDenied /\ k2 = SlotBadFileDesc)
    \/ (k1 = SlotNoSuchDir /\ k2 = SlotNotADirectory)
    \/ (k1 = SlotNotADirectory /\ k2 = SlotNoSuchDir))).
Proof.
  intros Hne. split.
  - intros Host.
    destruct ost; try congruence;
      destruct k1, k2; try congruence; cbn [slot SetOSType
        BadFileDesc DirNotEmpty FileExists InvalidArgument IsADirectory
        NoSuchDir NoSuchFile NotADirectory OpNotPermitted PermDenied
        TooManySymlinks];
      (split; [intros Heq; try discriminate Heq; tauto
              |intros [[H1 H2] | [H1 H2]]; try discriminate; reflexivity]).
  - intros ->.
    destruct k1, k2; try congruence; cbn [slot SetOSType
        BadFileDesc DirNotEmpty FileExists InvalidArgument IsADirectory
        NoSuchDir NoSuchFile NotADirectory OpNotPermitted PermDenied
        TooManySymlinks];
      (split; [intros Heq; try discriminate Heq; tauto
              |intros [[H1 H2] | [[H1 H2] | [[H1 H2] | [H1 H2]]]];
               try discriminate; reflexivity]).
Qed.

Lemma SetOSType_coinciding_slots_witness :
  slot SlotBadFileDesc (SetOSType emptyErrors OsWindows)
    = slot SlotPermDenied (SetOSType emptyErrors OsWindows)
  /\ slot SlotBadFileDesc (SetOSType emptyErrors OsLinux)
     <> slot SlotPermDenied (SetOSType emptyErrors OsLinux).
Proof.
  assert (Hne : SlotBadFileDesc <> SlotPermDenied) by discriminate.
  split.
  - apply (proj2 (SetOSType_coinciding_slots emptyErrors OsWindows
                    SlotBadFileDesc SlotPermDenied Hne) eq_refl).
    left. split; reflexivity.
  - intros Heq.
    assert (Hl : OsLinux <> OsWindows) by discriminate.
    apply (proj1 (SetOSType_coinciding_slots emptyErrors OsLinux
                    SlotBadFileDesc SlotPermDenied Hne) Hl) in Heq.
    destruct Heq as [[H _] | [H _]]; discriminate H.
Defined.

(** X24.  The OS file system and the error table agree on permission
    errors: for every OS type [OsFS.setErrors] stores in [PermDenied] the
    value that [Errors.SetOSType] gives that slot, a [WindowsError] on
    Windows and a [LinuxError] elsewhere. *)
Theorem osfs_setErrors_agrees (ost : OSType) (ve : Errors) :
  osfs.setErrors ost = slot SlotPermDenied (SetOSType ve ost) /\
  isWindowsError (osfs.setErrors ost) = OSType_eqb ost OsWindows /\
  isLinuxError (osfs.setErrors ost) = negb (OSType_eqb ost OsWindows).
Proof. destruct ost; repeat split. Qed.

(* ------------------------------------------------------------------ *)
(** ** [Chroot] and the operations after it *)







Section ChrootFacts.

Import basepathfs.

Context {B F : Type} {V : VFS B F} {M : PathMap B}.


End ChrootFacts.


(** Over the sample backend with the prefix [/base] and the joining
    translation, [Chroot("/tmp")] succeeds and empties the prefix; the
    [Open] of [/base//x/../tmp/] after it does not hand that path to the
    backend, which knows no such name, but the cleaned [/base/tmp]. *)
Lemma Chroot_then_Open_cleans :
  let chrooted :=
    snd (@basepathfs.Chroot ListFS (option gostring) ListFS_VFS
           sampleJoinMap sampleFS (str "/tmp")) in
  fst (@basepathfs.Chroot ListFS (option gostring) ListFS_VFS
         sampleJoinMap sampleFS (str "/tmp")) = None /\
  basepathfs.basePath chrooted = [] /\
  @basepathfs.pathFsToBpFs ListFS sampleJoinMap chrooted
      (str "/base//x/../tmp/") = str "/base/tmp" /\
  @basepathfs.pathFsToBpFs ListFS sampleJoinMap chrooted
      (str "/base//x/../tmp/") <> str "/base//x/../tmp/" /\
  @basepathfs.Open ListFS (option gostring) ListFS_VFS sampleJoinMap
      chrooted (str "/base//x/../tmp/")
    = (basepathfs.BasePathFile (Some (str "/base/tmp")), None, chrooted) /\
  snd (fst (basepathfs.vfsOpenFile (basepathfs.baseFS chrooted)
              (str "/base//x/../tmp/") 0 0))
    = Some (PathError (str "open") (str "/base//x/../tmp/")
              ErrNoSuchFileOrDir).
Proof.
  cbv zeta.
  split; [reflexivity|]. split; [reflexivity|]. split; [reflexivity|].
  split; [discriminate|]. split; reflexivity.
Qed.
